(** * lruish: a fixed-size, approximately-LRU cache (lruish.go)

    A shallow embedding of the engine [lruish] and of the locking wrapper
    [SynchedLRU], followed by the properties of the specification.

    Modelling choices.
    - Go's [int] is modelled as [Z].  Every integer the engine computes is
      derived from [head], [size] and a recorded slot, and lies strictly
      between [-size] and [2*size] (lemma [arithmetic_in_range]); [size]
      is the length of an allocated slice, so none of these computations
      can wrap around a 64-bit word.  Go's [/] and [%] truncate, hence
      [Z.quot] and [Z.rem].
    - [*lruElem] pointers are addresses into an explicit store [mem]; the
      map [items] and the slice [ring] both hold addresses, so that the
      sharing between the two is kept.  The nil pointer is [None].
    - A slice access out of range, a nil dereference and a division by
      zero panic: every operation returns an [option], [None] meaning
      panic.
    - Keys are the hashable values of [interface{}]: a type with decidable
      equality that is countable. *)

From Stdlib Require Import ZArith Lia String.
From stdpp Require Import base option list gmap strings.

Local Open Scope Z_scope.

(** ** Data model *)

(* a *lruElem: the address of an element in the store *)
Abbreviation loc := nat (only parsing).

Section Engine.
Context {K : Type} `{Countable K} {V : Type}.

(* type lruElem struct { value; key; index } *)
Record lruElem := mkElem { value : V; key : K; index : Z }.

(* type lruish struct { size; items; head; ring }, with the store of the
   elements the pointers refer to *)
Record lruish := mkLru {
  size : Z;
  items : gmap K loc;
  head : Z;
  ring : list (option loc);
  mem : list lruElem
}.

Definition set_index (e : lruElem) (i : Z) : lruElem :=
  {| value := value e; key := key e; index := i |}.

Definition set_value (e : lruElem) (v : V) : lruElem :=
  {| value := v; key := key e; index := index e |}.

(* c.ring[i], panics out of range *)
Definition ring_get (r : list (option loc)) (i : Z) : option (option loc) :=
  if decide (0 <= i) then r !! Z.to_nat i else None.

(* c.ring[i] = x, panics out of range *)
Definition ring_set (r : list (option loc)) (i : Z) (x : option loc)
  : option (list (option loc)) :=
  if decide (0 <= i < Z.of_nat (length r)) then Some (<[Z.to_nat i := x]> r)
  else None.

(* make([]*lruElem, n), panics when n is negative *)
Definition make_ring (n : Z) : option (list (option loc)) :=
  if decide (0 <= n) then Some (replicate (Z.to_nat n) None) else None.

(** ** Construction *)

(* func NewUnsynched(size int) (Cache, error) *)
Definition NewUnsynched (sz : Z) : option (lruish + string) :=
  if decide (sz <= 0) then Some (inr "must provide a positive size"%string)
  else
    r ← make_ring sz;
    Some (inl {| size := sz; items := ∅; head := 0; ring := r; mem := [] |}).

(** ** Promotion *)

(* position := curIndex - c.head; if position < 0 { position += c.size } *)
Definition position (c : lruish) (curIndex : Z) : Z :=
  let position := curIndex - head c in
  if decide (position < 0) then position + size c else position.

(* newIndex := (c.head + position/2) % c.size *)
Definition newIndex (c : lruish) (curIndex : Z) : option Z :=
  if decide (size c = 0) then None
  else Some (Z.rem (head c + Z.quot (position c curIndex) 2) (size c)).

(* func (c *lruish) promote(ent *lruElem) *)
Definition promote (c : lruish) (ent : loc) : option lruish :=
  e ← mem c !! ent;
  let curIndex := index e in
  ni ← newIndex c curIndex;
  (* if c.ring[newIndex] != nil { c.ring[newIndex].index = curIndex } *)
  d ← ring_get (ring c) ni;
  m1 ← match d with
       | Some p => e' ← mem c !! p; Some (<[p := set_index e' curIndex]> (mem c))
       | None => Some (mem c)
       end;
  (* ent.index = newIndex *)
  e1 ← m1 !! ent;
  let m2 := <[ent := set_index e1 ni]> m1 in
  (* c.ring[curIndex], c.ring[newIndex] = c.ring[newIndex], c.ring[curIndex] *)
  a ← ring_get (ring c) ni;
  b ← ring_get (ring c) curIndex;
  r1 ← ring_set (ring c) curIndex a;
  r2 ← ring_set r1 ni b;
  Some {| size := size c; items := items c; head := head c;
          ring := r2; mem := m2 |}.

(** ** Operations of the engine *)

(* func (c *lruish) Get(key) (interface{}, bool) *)
Definition Get (c : lruish) (k : K) : option ((option V * bool) * lruish) :=
  match items c !! k with
  | Some ent =>
      c' ← promote c ent;
      e ← mem c' !! ent;
      Some ((Some (value e), true), c')
  | None => Some ((None, false), c)
  end.

(* func (c *lruish) Add(key, value) bool *)
Definition Add (c : lruish) (k : K) (v : V) : option (bool * lruish) :=
  match items c !! k with
  | Some ent =>
      c' ← promote c ent;
      e ← mem c' !! ent;
      Some (false, {| size := size c'; items := items c'; head := head c';
                      ring := ring c';
                      mem := <[ent := set_value e v]> (mem c') |})
  | None =>
      (* c.head--; if c.head < 0 { c.head += c.size } *)
      let h := head c - 1 in
      let h := if decide (h < 0) then h + size c else h in
      (* tailIndex := c.head - 1; if tailIndex < 0 { tailIndex += c.size } *)
      let tailIndex := h - 1 in
      let tailIndex :=
        if decide (tailIndex < 0) then tailIndex + size c else tailIndex in
      (* if toDelete := c.ring[tailIndex]; toDelete != nil { delete(...) } *)
      toDelete ← ring_get (ring c) tailIndex;
      its ← match toDelete with
            | Some p => e ← mem c !! p; Some (delete (key e) (items c))
            | None => Some (items c)
            end;
      (* ent := &lruElem{value, key, index: c.head} *)
      let ent := length (mem c) in
      let m := mem c ++ [{| value := v; key := k; index := h |}] in
      r ← ring_set (ring c) h (Some ent);
      Some (true, {| size := size c; items := <[k := ent]> its; head := h;
                     ring := r; mem := m |})
  end.

(* func (c *lruish) Contains(key) (ok bool) *)
Definition Contains (c : lruish) (k : K) : option (bool * lruish) :=
  match items c !! k with
  | Some _ => Some (true, c)
  | None => Some (false, c)
  end.

(* func (c *lruish) Peek(key) (interface{}, bool) *)
Definition Peek (c : lruish) (k : K) : option ((option V * bool) * lruish) :=
  match items c !! k with
  | Some ent => e ← mem c !! ent; Some ((Some (value e), true), c)
  | None => Some ((None, false), c)
  end.

(* func (c *lruish) ContainsOrAdd(key, value) (ok, evicted bool) *)
Definition ContainsOrAdd (c : lruish) (k : K) (v : V)
  : option ((bool * bool) * lruish) :=
  '(found, c1) ← Contains c k;
  if (found : bool) then Some ((true, false), c1)
  else
    '(evicted, c2) ← Add c1 k v;
    Some ((false, evicted), c2).

(* func (c *lruish) Keys() []interface{}: the keys in the order the map
   is ranged over, which Go leaves unspecified *)
Definition Keys (c : lruish) : option (list K * lruish) :=
  Some (fst <$> map_to_list (items c), c).

(* func (c *lruish) Len() int *)
Definition Len (c : lruish) : option (Z * lruish) :=
  Some (Z.of_nat (base.size (items c)), c).

(* func (c *lruish) Purge() *)
Definition Purge (c : lruish) : option (unit * lruish) :=
  r ← make_ring (size c);
  Some (tt, {| size := size c; items := ∅; head := 0; ring := r;
               mem := mem c |}).

(* func (c *lruish) Remove(key) bool *)
Definition Remove (c : lruish) (k : K) : option (bool * lruish) :=
  match items c !! k with
  | Some ent =>
      e ← mem c !! ent;
      r ← ring_set (ring c) (index e) None;
      Some (true, {| size := size c; items := delete k (items c);
                     head := head c; ring := r; mem := mem c |})
  | None => Some (false, c)
  end.

End Engine.

Arguments lruElem : clear implicits.
Arguments lruish K {_ _} V.

(** ** Sequences of operations on the engine *)

Section Runs.
Context {K : Type} `{Countable K} {V : Type}.

Inductive op :=
  | OpAdd (k : K) (v : V)
  | OpGet (k : K)
  | OpPeek (k : K)
  | OpContains (k : K)
  | OpContainsOrAdd (k : K) (v : V)
  | OpRemove (k : K)
  | OpKeys
  | OpLen
  | OpPurge.

Inductive ret :=
  | RetBool (b : bool)
  | RetLookup (v : option V) (ok : bool)
  | RetFound (ok evicted : bool)
  | RetKeys (ks : list K)
  | RetLen (n : Z)
  | RetUnit.

Definition exec (o : op) (c : lruish K V) : option (ret * lruish K V) :=
  match o with
  | OpAdd k v => '(b, c') ← Add c k v; Some (RetBool b, c')
  | OpGet k => '(r, c') ← Get c k; Some (RetLookup r.1 r.2, c')
  | OpPeek k => '(r, c') ← Peek c k; Some (RetLookup r.1 r.2, c')
  | OpContains k => '(b, c') ← Contains c k; Some (RetBool b, c')
  | OpContainsOrAdd k v =>
      '(r, c') ← ContainsOrAdd c k v; Some (RetFound r.1 r.2, c')
  | OpRemove k => '(b, c') ← Remove c k; Some (RetBool b, c')
  | OpKeys => '(ks, c') ← Keys c; Some (RetKeys ks, c')
  | OpLen => '(n, c') ← Len c; Some (RetLen n, c')
  | OpPurge => '(_, c') ← Purge c; Some (RetUnit, c')
  end.

(* the calls of [os] one after the other; the trace pairs each call with
   what it returned *)
Fixpoint run (os : list op) (c : lruish K V)
  : option (list (op * ret) * lruish K V) :=
  match os with
  | [] => Some ([], c)
  | o :: os' =>
      '(r, c1) ← exec o c;
      '(tr, c2) ← run os' c1;
      Some ((o, r) :: tr, c2)
  end.

(* a cache built by [NewUnsynched sz] and then used through [os] *)
Definition built (sz : Z) (os : list op) : option (list (op * ret) * lruish K V) :=
  match NewUnsynched sz with
  | Some (inl c) => run os c
  | _ => None
  end.

(* len(c.items) *)
Definition len (c : lruish K V) : Z := Z.of_nat (base.size (items c)).

(* _, ok := c.items[key] *)
Definition resident (c : lruish K V) (k : K) : bool :=
  bool_decide (is_Some (items c !! k)).

End Runs.

Arguments op : clear implicits.
Arguments ret : clear implicits.

(** ** The locking wrapper *)

(* sync.RWMutex, as seen by the one goroutine that runs the calls *)
Record RWMutex := mkMutex { writer : bool; readers : nat }.

(* Lock blocks while the mutex is held; [None] is a call that waits *)
Definition Lock (m : RWMutex) : option RWMutex :=
  if writer m then None
  else match readers m with
       | O => Some {| writer := true; readers := O |}
       | S _ => None
       end.

(* Unlock of a mutex that is not write-locked is a fatal error *)
Definition Unlock (m : RWMutex) : option RWMutex :=
  if writer m then Some {| writer := false; readers := readers m |} else None.

Definition RLock (m : RWMutex) : option RWMutex :=
  if writer m then None
  else Some {| writer := false; readers := S (readers m) |}.

Definition RUnlock (m : RWMutex) : option RWMutex :=
  match readers m with
  | O => None
  | S n => Some {| writer := writer m; readers := n |}
  end.

Inductive outcome (A : Type) :=
  | Returns (a : A)
  | Panics
  | Blocks       (* waits for a lock that is never released *)
  | OutOfFuel.
Arguments Returns {A} a.
Arguments Panics {A}.
Arguments Blocks {A}.
Arguments OutOfFuel {A}.

Section Wrapper.
Context {K : Type} `{Countable K} {V : Type}.

(* type SynchedLRU struct { lru Cache; lock sync.RWMutex } *)
Record SynchedLRU := mkSynched { lru : lruish K V; lock : RWMutex }.

(* func NewSynched(size int) (Cache, error); the source spells the
   constructor it calls NewUnsyched *)
Definition NewSynched (sz : Z) : option (SynchedLRU + string) :=
  r ← NewUnsynched sz;
  match r with
  | inr err => Some (inr err)
  | inl e => Some (inl {| lru := e; lock := {| writer := false; readers := O |} |})
  end.

(* c.lock.Lock(); defer c.lock.Unlock(); return f(c.lru) *)
Definition with_Lock {A} (c : SynchedLRU)
    (f : lruish K V → option (A * lruish K V)) : outcome (A * SynchedLRU) :=
  match Lock (lock c) with
  | None => Blocks
  | Some l =>
      match f (lru c) with
      | None => Panics
      | Some (a, e) =>
          match Unlock l with
          | Some l' => Returns (a, {| lru := e; lock := l' |})
          | None => Panics
          end
      end
  end.

(* c.lock.RLock(); defer c.lock.RUnlock(); return f(c.lru) *)
Definition with_RLock {A} (c : SynchedLRU)
    (f : lruish K V → option (A * lruish K V)) : outcome (A * SynchedLRU) :=
  match RLock (lock c) with
  | None => Blocks
  | Some l =>
      match f (lru c) with
      | None => Panics
      | Some (a, e) =>
          match RUnlock l with
          | Some l' => Returns (a, {| lru := e; lock := l' |})
          | None => Panics
          end
      end
  end.

Definition SynchedLRU_Add (c : SynchedLRU) (k : K) (v : V) :=
  with_Lock c (fun e => Add e k v).
Definition SynchedLRU_Get (c : SynchedLRU) (k : K) :=
  with_Lock c (fun e => Get e k).
Definition SynchedLRU_Contains (c : SynchedLRU) (k : K) :=
  with_RLock c (fun e => Contains e k).
Definition SynchedLRU_Peek (c : SynchedLRU) (k : K) :=
  with_RLock c (fun e => Peek e k).
Definition SynchedLRU_Keys (c : SynchedLRU) :=
  with_RLock c (fun e => Keys e).
Definition SynchedLRU_Len (c : SynchedLRU) :=
  with_RLock c (fun e => Len e).
Definition SynchedLRU_Remove (c : SynchedLRU) (k : K) :=
  with_Lock c (fun e => Remove e k).

(* func (c *SynchedLRU) ContainsOrAdd(key, value) (ok, evicted bool) {
     c.lock.Lock(); defer c.lock.Unlock()
     return c.ContainsOrAdd(key, value) }
   The call in the body is the method itself, on the wrapper; [fuel]
   bounds the depth of the recursion. *)
Fixpoint SynchedLRU_ContainsOrAdd (fuel : nat) (c : SynchedLRU) (k : K) (v : V)
  : outcome ((bool * bool) * SynchedLRU) :=
  match fuel with
  | O => OutOfFuel
  | S fuel' =>
      match Lock (lock c) with
      | None => Blocks
      | Some l =>
          match SynchedLRU_ContainsOrAdd fuel' {| lru := lru c; lock := l |} k v with
          | Returns (r, c') =>
              match Unlock (lock c') with
              | Some l' => Returns (r, {| lru := lru c'; lock := l' |})
              | None => Panics
              end
          | Panics => Panics
          | Blocks => Blocks
          | OutOfFuel => OutOfFuel
          end
      end
  end.

(* The wrapper's containsOrAdd in the words of the specification
   (sections 4.1 and 4.2): one exclusive critical section around the
   engine's ContainsOrAdd.  It is compared with the method above. *)
Definition spec_Synched_containsOrAdd (c : SynchedLRU) (k : K) (v : V) :=
  with_Lock c (fun e => ContainsOrAdd e k v).

End Wrapper.

Arguments SynchedLRU K {_ _} V.

(** ** The representation invariant and the notions of the properties *)

Section Notions.
Context {K : Type} `{Countable K} {V : Type}.
Implicit Types (c : lruish K V) (k : K) (v : V) (l : loc).

(* the slot the next insertion writes: c.head--, wrapped *)
Definition next_head c : Z :=
  if decide (head c - 1 < 0) then head c - 1 + size c else head c - 1.

(* every key of the index maps to an element that carries this key and
   whose recorded slot holds this very element *)
Definition xref c : Prop :=
  ∀ k l, items c !! k = Some l →
    ∃ e, mem c !! l = Some e ∧ key e = k ∧
         ring_get (ring c) (index e) = Some (Some l).

Record wf c : Prop := mkWf {
  wf_size : 0 < size c;
  wf_head : 0 <= head c < size c;
  wf_ring : Z.of_nat (length (ring c)) = size c;
  wf_xref : xref c;
  wf_ptr : ∀ i l, ring c !! i = Some (Some l) → (l < length (mem c))%nat;
  wf_tail : 2 <= size c → ∀ k l e,
      items c !! k = Some l → mem c !! l = Some e → index e ≠ next_head c
}.

(* the slot a resident key occupies *)
Definition slot_of c (kl : K * loc) : Z :=
  from_option index 0 (mem c !! kl.2).

(* the offset of a resident key from the head cursor, as [promote]
   computes it *)
Definition distance c k : option Z :=
  l ← items c !! k;
  e ← mem c !! l;
  Some (position c (index e)).

(* consecutive calls of Get on one key *)
Definition gets (n : nat) k : list (op K V) := replicate n (OpGet k).

(* consecutive calls of Add *)
Definition adds (kvs : list (K * V)) : list (op K V) :=
  (λ kv, OpAdd kv.1 kv.2) <$> kvs.

(* the calls that may change the cache: all but Peek and Contains *)
Definition is_mutating (o : op K V) : bool :=
  match o with
  | OpPeek _ | OpContains _ => false
  | _ => true
  end.

(* what the calls of a run returned, in order *)
Definition results (r : option (list (op K V * ret K V) * lruish K V))
  : option (list (ret K V)) :=
  match r with
  | Some (tr, _) => Some (snd <$> tr)
  | None => None
  end.

(* "after [steps d] consecutive Get calls on a key resident at distance
   [d > 0] from the head, its distance is 0" *)
Definition converges_after (steps : Z → Z) : Prop :=
  ∀ sz (os : list (op K V)) tr c k d,
    built sz os = Some (tr, c) → distance c k = Some d → 0 < d →
    ∃ tr' c', run (gets (Z.to_nat (steps d)) k) c = Some (tr', c') ∧
              distance c' k = Some 0.

End Notions.

(** ** The scenarios of the specification and of the README *)

(* capacity 2: add(1,a), add(2,b), add(3,c), then the observations *)
Definition scenario_capacity_2 : list (op Z string) :=
  [OpAdd 1 "a"; OpAdd 2 "b"; OpAdd 3 "c";
   OpContains 1; OpContains 2; OpContains 3; OpLen]%string.

(* capacity 128: for i := 0; i < 256; i++ { l.Add(i, nil) } *)
Definition scenario_capacity_128 : list (op Z (option string)) :=
  adds ((λ i, (i, None)) <$> seqZ 0 256) ++
  [OpLen; OpContains 0; OpContains 255].

(* three keys in a cache of four slots: key 1 sits two slots from the head *)
Definition three_of_four : list (op Z string) :=
  [OpAdd 1 "a"; OpAdd 2 "b"; OpAdd 3 "c"]%string.

(* the cache these three insertions leave *)
Definition cache_three_of_four : lruish Z string :=
  {| size := 4;
     items := <[3 := 2%nat]> (<[2 := 1%nat]> (<[1 := 0%nat]> ∅));
     head := 1;
     ring := [None; Some 2%nat; Some 1%nat; Some 0%nat];
     mem := [ {| value := "a"; key := 1; index := 3 |};
              {| value := "b"; key := 2; index := 2 |};
              {| value := "c"; key := 3; index := 1 |} ]%string |}.

(* the trace of these three insertions *)
Definition trace_three_of_four : list (op Z string * ret Z string) :=
  [(OpAdd 1 "a", RetBool true); (OpAdd 2 "b", RetBool true);
   (OpAdd 3 "c", RetBool true)]%string.

(* observations interleaved with two further insertions *)
Definition peeks_between_adds : list (op Z string) :=
  [OpPeek 1; OpAdd 4 "d"; OpContains 2; OpPeek 4; OpAdd 5 "e"]%string.

(** ** Notions for the further properties *)

Section FurtherNotions.
Context {K : Type} `{Countable K} {V : Type}.
Implicit Types (c : lruish K V) (k : K) (v : V) (l : loc).

(* the slot Add inspects for an entry to evict: tailIndex := c.head - 1,
   wrapped, computed after the head has moved *)
Definition tail_index c : Z :=
  if decide (next_head c - 1 < 0) then next_head c - 1 + size c
  else next_head c - 1.

(* the value held for a resident key: c.items[key].value *)
Definition stored c k : option V :=
  l ← items c !! k;
  e ← mem c !! l;
  Some (value e).

(* every element still in the ring, the slot of the next insertion apart,
   is resident and records the slot that holds it *)
Definition tidy c : Prop :=
  ∀ (i : nat) l, ring c !! i = Some (Some l) →
    Z.of_nat i ≠ next_head c ∨ size c = 1 →
    ∃ k e, items c !! k = Some l ∧ mem c !! l = Some e ∧
           index e = Z.of_nat i.

(* no key is resident *)
Definition vacant c : Prop := ∀ k, items c !! k = None.

(* the last [n] elements of a list *)
Definition last_n {A} (n : nat) (xs : list A) : list A :=
  drop (length xs - n) xs.

(* the methods of the Cache interface, as calls on the wrapper *)
Inductive synched_op :=
  | SAdd (k : K) (v : V)
  | SGet (k : K)
  | SContains (k : K)
  | SPeek (k : K)
  | SContainsOrAdd (k : K) (v : V)
  | SRemove (k : K)
  | SKeys
  | SLen.

(* the call of the engine a method of the wrapper stands for *)
Definition to_op (o : synched_op) : op K V :=
  match o with
  | SAdd k v => OpAdd k v
  | SGet k => OpGet k
  | SContains k => OpContains k
  | SPeek k => OpPeek k
  | SContainsOrAdd k v => OpContainsOrAdd k v
  | SRemove k => OpRemove k
  | SKeys => OpKeys
  | SLen => OpLen
  end.

(* the methods whose body calls c.lru *)
Definition delegates (o : synched_op) : bool :=
  match o with
  | SContainsOrAdd _ _ => false
  | _ => true
  end.

Definition outcome_ret {A} (f : A → ret K V)
    (o : outcome (A * SynchedLRU K V)) : outcome (ret K V * SynchedLRU K V) :=
  match o with
  | Returns (a, s) => Returns (f a, s)
  | Panics => Panics
  | Blocks => Blocks
  | OutOfFuel => OutOfFuel
  end.

Definition synched_exec (fuel : nat) (o : synched_op) (s : SynchedLRU K V)
  : outcome (ret K V * SynchedLRU K V) :=
  match o with
  | SAdd k v => outcome_ret RetBool (SynchedLRU_Add s k v)
  | SGet k => outcome_ret (λ r, RetLookup r.1 r.2) (SynchedLRU_Get s k)
  | SContains k => outcome_ret RetBool (SynchedLRU_Contains s k)
  | SPeek k => outcome_ret (λ r, RetLookup r.1 r.2) (SynchedLRU_Peek s k)
  | SContainsOrAdd k v =>
      outcome_ret (λ r, RetFound r.1 r.2) (SynchedLRU_ContainsOrAdd fuel s k v)
  | SRemove k => outcome_ret RetBool (SynchedLRU_Remove s k)
  | SKeys => outcome_ret RetKeys (SynchedLRU_Keys s)
  | SLen => outcome_ret RetLen (SynchedLRU_Len s)
  end.

(* calls on the wrapper one after the other, by one goroutine *)
Fixpoint synched_run (fuel : nat) (os : list synched_op) (s : SynchedLRU K V)
  : outcome (list (op K V * ret K V) * SynchedLRU K V) :=
  match os with
  | [] => Returns ([], s)
  | o :: os' =>
      match synched_exec fuel o s with
      | Returns (r, s1) =>
          match synched_run fuel os' s1 with
          | Returns (tr, s2) => Returns ((to_op o, r) :: tr, s2)
          | Panics => Panics
          | Blocks => Blocks
          | OutOfFuel => OutOfFuel
          end
      | Panics => Panics
      | Blocks => Blocks
      | OutOfFuel => OutOfFuel
      end
  end.

End FurtherNotions.

Arguments synched_op : clear implicits.

(** ** Basic facts about the invariant *)

Section Invariant.
Context {K : Type} `{Countable K} {V : Type}.
Implicit Types (c : lruish K V) (k : K) (v : V) (l : loc).

Lemma ring_get_Some (r : list (option loc)) i x :
  ring_get r i = Some x ↔ 0 <= i ∧ r !! Z.to_nat i = Some x.
Proof.
  unfold ring_get. case_decide; [tauto|].
  split; [discriminate | intros [? _]; lia].
Qed.

Lemma ring_get_lt (r : list (option loc)) i x :
  ring_get r i = Some x → 0 <= i < Z.of_nat (length r).
Proof.
  intros [Hi Hl]%ring_get_Some. apply lookup_lt_Some in Hl. lia.
Qed.

Lemma ring_get_total (r : list (option loc)) i :
  0 <= i < Z.of_nat (length r) → ∃ x, ring_get r i = Some x.
Proof.
  intros Hi. destruct (lookup_lt_is_Some_2 r (Z.to_nat i)) as [x Hx]; [lia|].
  exists x. apply ring_get_Some. split; [lia|done].
Qed.

Lemma ring_set_Some (r : list (option loc)) i x :
  0 <= i < Z.of_nat (length r) → ring_set r i x = Some (<[Z.to_nat i := x]> r).
Proof. intros Hi. unfold ring_set. by rewrite decide_True. Qed.

Lemma wf_index c k l e :
  wf c → items c !! k = Some l → mem c !! l = Some e →
  key e = k ∧ 0 <= index e < size c ∧
  ring c !! Z.to_nat (index e) = Some (Some l).
Proof.
  intros Hwf Hk He. destruct (wf_xref c Hwf k l Hk) as (e' & He' & Hkey & Hr).
  assert (e' = e) as -> by congruence.
  pose proof (ring_get_lt _ _ _ Hr) as Hlt. rewrite (wf_ring c Hwf) in Hlt.
  apply ring_get_Some in Hr as [_ Hr]. auto.
Qed.

Lemma wf_lookup c k l :
  wf c → items c !! k = Some l → ∃ e, mem c !! l = Some e.
Proof. intros Hwf Hk. destruct (wf_xref c Hwf k l Hk) as (e & ? & _). eauto. Qed.

(* two resident keys never share a slot *)
Lemma wf_slot_inj c k1 k2 l1 l2 e1 e2 :
  wf c → items c !! k1 = Some l1 → items c !! k2 = Some l2 →
  mem c !! l1 = Some e1 → mem c !! l2 = Some e2 →
  index e1 = index e2 → k1 = k2 ∧ l1 = l2.
Proof.
  intros Hwf H1 H2 M1 M2 Hi.
  destruct (wf_index c k1 l1 e1 Hwf H1 M1) as (K1 & _ & R1).
  destruct (wf_index c k2 l2 e2 Hwf H2 M2) as (K2 & _ & R2).
  rewrite Hi in R1. assert (l1 = l2) as -> by congruence.
  split; [congruence | done].
Qed.

(** The arithmetic of promotion: what the source computes with [-], [/]
    and [%] is the offset from the head modulo the size, halved. *)

Lemma position_mod c i :
  0 < size c → 0 <= head c < size c → 0 <= i < size c →
  position c i = (i - head c) mod size c.
Proof.
  intros Hs Hh Hi. unfold position. case_decide.
  - apply Z.mod_unique with (q := -1); lia.
  - symmetry. apply Z.mod_small. lia.
Qed.

Lemma position_range c i :
  0 < size c → 0 <= head c < size c → 0 <= i < size c →
  0 <= position c i < size c.
Proof. intros Hs Hh Hi. unfold position. case_decide; lia. Qed.

Lemma newIndex_mod c i :
  0 < size c → 0 <= head c < size c → 0 <= i < size c →
  newIndex c i = Some ((head c + position c i / 2) mod size c).
Proof.
  intros Hs Hh Hi. unfold newIndex. rewrite decide_False by lia.
  pose proof (position_range c i Hs Hh Hi) as Hp.
  rewrite Z.quot_div_nonneg by lia.
  rewrite Z.rem_mod_nonneg; [done | | lia].
  assert (0 <= position c i / 2) by (apply Z.div_pos; lia). lia.
Qed.

Lemma position_next_head c i :
  0 < size c → 0 <= head c < size c → 0 <= i < size c →
  position c i = size c - 1 ↔ i = next_head c.
Proof.
  intros Hs Hh Hi. unfold position, next_head. repeat case_decide; lia.
Qed.

(* where an element at offset [p] from the head lands *)
Lemma position_newIndex c i ni :
  0 < size c → 0 <= head c < size c → 0 <= i < size c →
  newIndex c i = Some ni →
  0 <= ni < size c ∧ position c ni = position c i / 2.
Proof.
  intros Hs Hh Hi. rewrite newIndex_mod by done. intros [= <-].
  pose proof (position_range c i Hs Hh Hi) as Hp.
  assert (0 <= position c i / 2 < size c) as Hq.
  { split; [apply Z.div_pos; lia|].
    apply Z.div_lt_upper_bound; lia. }
  set (q := position c i / 2) in *.
  pose proof (Z.mod_pos_bound (head c + q) (size c) Hs) as Hm.
  split; [done|].
  rewrite position_mod by done.
  rewrite Zminus_mod_idemp_l.
  replace (head c + q - head c) with q by lia.
  apply Z.mod_small. lia.
Qed.

(* the intermediate values of promote and Add stay far from the limits of
   a machine word *)
Lemma arithmetic_in_range c i :
  wf c → 0 <= i < size c →
  - size c < i - head c < size c ∧
  0 <= position c i < size c ∧
  0 <= head c + Z.quot (position c i) 2 < 2 * size c ∧
  -1 <= head c - 1 < size c ∧
  -1 <= next_head c - 1 < size c.
Proof.
  intros Hwf Hi.
  pose proof (wf_size c Hwf) as Hs. pose proof (wf_head c Hwf) as Hh.
  pose proof (position_range c i Hs Hh Hi) as Hp.
  rewrite Z.quot_div_nonneg by lia.
  assert (0 <= position c i / 2 <= position c i).
  { split; [apply Z.div_pos; lia | apply Z.div_le_upper_bound; lia]. }
  unfold next_head. case_decide; lia.
Qed.

End Invariant.

(** ** What promotion does to a well-formed cache *)

Section Promotion.
Context {K : Type} `{Countable K} {V : Type}.
Implicit Types (c : lruish K V) (k : K) (v : V) (l : loc).

Lemma promote_spec c k l e :
  wf c → items c !! k = Some l → mem c !! l = Some e →
  ∃ ni d c',
    newIndex c (index e) = Some ni ∧
    ring c !! Z.to_nat ni = Some d ∧
    promote c l = Some c' ∧
    size c' = size c ∧ items c' = items c ∧ head c' = head c ∧
    ring c' = <[Z.to_nat ni := Some l]> (<[Z.to_nat (index e) := d]> (ring c)) ∧
    length (mem c') = length (mem c) ∧
    mem c' !! l = Some (set_index e ni) ∧
    (∀ l' e', l' ≠ l → mem c !! l' = Some e' →
       mem c' !! l' =
         Some (if decide (d = Some l') then set_index e' (index e) else e')).
Proof.
  intros Hwf Hk He.
  destruct (wf_index c k l e Hwf Hk He) as (Hkey & Hcur & Hrc).
  pose proof (wf_size c Hwf) as Hs. pose proof (wf_head c Hwf) as Hh.
  pose proof (wf_ring c Hwf) as Hlen.
  destruct (newIndex c (index e)) as [ni|] eqn:Hni;
    [| by rewrite newIndex_mod in Hni].
  destruct (position_newIndex c (index e) ni Hs Hh Hcur Hni) as [Hnir _].
  destruct (ring_get_total (ring c) ni) as [d Hd]; [lia|].
  assert (ring_get (ring c) (index e) = Some (Some l)) as Hgc.
  { apply ring_get_Some. split; [lia|done]. }
  pose proof Hd as Hd'. apply ring_get_Some in Hd' as [_ Hd'].
  assert (∃ m1, match d with
                | Some p => e' ← mem c !! p;
                            Some (<[p := set_index e' (index e)]> (mem c))
                | None => Some (mem c)
                end = Some m1 ∧
          length m1 = length (mem c) ∧
          m1 !! l = Some (set_index e (index e)) ∧
          ∀ l' e', l' ≠ l → mem c !! l' = Some e' →
            m1 !! l' = Some (if decide (d = Some l')
                             then set_index e' (index e) else e'))
    as (m1 & Hm1 & Hlm1 & Hm1l & Hm1o).
  { destruct d as [p|].
    - pose proof (wf_ptr c Hwf _ _ Hd') as Hp.
      destruct (lookup_lt_is_Some_2 (mem c) p Hp) as [e' He'].
      exists (<[p := set_index e' (index e)]> (mem c)).
      rewrite He'. simpl. split; [done|]. split; [by rewrite length_insert|].
      split.
      + destruct (decide (p = l)) as [->|Hne].
        * rewrite list_lookup_insert_eq by done. congruence.
        * rewrite list_lookup_insert_ne by done. rewrite He. by destruct e.
      + intros l' e2 Hl' He2. case_decide as Hdl.
        * injection Hdl as ->. rewrite list_lookup_insert_eq by done.
          congruence.
        * rewrite list_lookup_insert_ne by congruence. done.
    - exists (mem c). split; [done|]. split; [done|]. split.
      + rewrite He. by destruct e.
      + intros l' e2 _ He2. by rewrite decide_False. }
  exists ni, d.
  eexists. split; [done|]. split; [done|].
  unfold promote. rewrite He. simpl. rewrite Hni. simpl. rewrite Hd. simpl.
  rewrite Hm1. simpl. rewrite Hm1l. simpl. rewrite Hgc. simpl.
  rewrite ring_set_Some by lia. simpl.
  rewrite ring_set_Some by (rewrite length_insert; lia). simpl.
  split; [reflexivity|]. simpl.
  assert (l < length m1)%nat as Hlt by (by apply lookup_lt_Some in Hm1l).
  repeat split; try done.
  - by rewrite length_insert.
  - by rewrite list_lookup_insert_eq.
  - intros l' e' Hl' He'. rewrite list_lookup_insert_ne by done. eauto.
Qed.

End Promotion.

(** ** Every operation keeps the invariant and returns *)

Section Preservation.
Context {K : Type} `{Countable K} {V : Type}.
Implicit Types (c : lruish K V) (k : K) (v : V) (l : loc).

Lemma next_head_range c :
  0 < size c → 0 <= head c < size c → 0 <= next_head c < size c.
Proof. intros. unfold next_head. case_decide; lia. Qed.

Lemma promote_wf c k l e :
  wf c → items c !! k = Some l → mem c !! l = Some e →
  ∃ ni c',
    promote c l = Some c' ∧ wf c' ∧
    size c' = size c ∧ items c' = items c ∧ head c' = head c ∧
    mem c' !! l = Some (set_index e ni) ∧
    position c' ni = position c (index e) / 2.
Proof.
  intros Hwf Hk He.
  destruct (promote_spec c k l e Hwf Hk He)
    as (ni & d & c' & Hni & Hd & Hp & Hsz & Hit & Hhd & Hr & Hlm & Hml & Hmo).
  destruct (wf_index c k l e Hwf Hk He) as (Hkey & Hcur & Hrc).
  pose proof (wf_size c Hwf) as Hs. pose proof (wf_head c Hwf) as Hh.
  pose proof (wf_ring c Hwf) as Hlen.
  destruct (position_newIndex c (index e) ni Hs Hh Hcur Hni) as [Hnir Hpos].
  exists ni, c'. split; [done|].
  assert (position c' ni = position c ni) as Hpc.
  { unfold position. by rewrite Hsz, Hhd. }
  assert (next_head c' = next_head c) as Hnh.
  { unfold next_head. by rewrite Hsz, Hhd. }
  split; [| repeat split; try done; congruence].
  split.
  - lia.
  - lia.
  - (* the ring keeps its length *)
    rewrite Hr, !length_insert. lia.
  - (* cross references *)
    intros k2 l2 Hk2. rewrite Hit in Hk2.
    destruct (decide (l2 = l)) as [->|Hne].
    + exists (set_index e ni). split; [done|]. split.
      * simpl. destruct (wf_xref c Hwf k2 l Hk2) as (e2 & He2 & Hkey2 & _).
        congruence.
      * apply ring_get_Some. split; [simpl; lia|]. simpl. rewrite Hr.
        apply list_lookup_insert_eq. rewrite length_insert. lia.
    + destruct (wf_lookup c k2 l2 Hwf Hk2) as [e2 He2].
      destruct (wf_index c k2 l2 e2 Hwf Hk2 He2) as (Hkey2 & Hi2 & Hr2).
      rewrite (Hmo l2 e2 Hne He2). eexists. split; [done|].
      case_decide as Hdl.
      * split; [done|]. apply ring_get_Some. simpl. split; [lia|].
        rewrite Hr. subst d.
        assert (ni ≠ index e) as Hnc by (intros ->; congruence).
        rewrite list_lookup_insert_ne by lia.
        apply list_lookup_insert_eq. lia.
      * split; [done|]. apply ring_get_Some. split; [lia|]. rewrite Hr.
        assert (index e2 ≠ ni) by (intros Heq; rewrite Heq in Hr2; congruence).
        assert (index e2 ≠ index e) by (intros Heq; rewrite Heq in Hr2; congruence).
        rewrite !list_lookup_insert_ne by lia. done.
  - (* the ring holds allocated elements *)
    intros i l' Hi. rewrite Hlm. rewrite Hr in Hi.
    destruct (decide (Z.to_nat ni = i)) as [<-|Hn1].
    { rewrite list_lookup_insert_eq in Hi by (rewrite length_insert; lia).
      injection Hi as <-. by apply lookup_lt_Some in He. }
    rewrite list_lookup_insert_ne in Hi by done.
    destruct (decide (Z.to_nat (index e) = i)) as [<-|Hn2].
    { rewrite list_lookup_insert_eq in Hi by lia. injection Hi as ->.
      by apply (wf_ptr c Hwf) in Hd. }
    rewrite list_lookup_insert_ne in Hi by done.
    by apply (wf_ptr c Hwf) in Hi.
  - (* nothing live in the slot of the next insertion *)
    intros Hs2 k2 l2 e2' Hk2 He2'. rewrite Hsz in Hs2. rewrite Hit in Hk2.
    rewrite Hnh.
    pose proof (wf_tail c Hwf Hs2 k l e Hk He) as Hte.
    destruct (decide (l2 = l)) as [->|Hne].
    + assert (e2' = set_index e ni) as -> by congruence. simpl.
      intros Heq. apply position_next_head in Heq; [|done..].
      assert (position c (index e) ≠ size c - 1) as Hpe
        by (by rewrite position_next_head).
      pose proof (position_range c (index e) Hs Hh Hcur) as Hpr.
      rewrite Hpos in Heq.
      assert (position c (index e) / 2 <= position c (index e))
        by (apply Z.div_le_upper_bound; lia).
      lia.
    + destruct (wf_lookup c k2 l2 Hwf Hk2) as [e2 He2].
      rewrite (Hmo l2 e2 Hne He2) in He2'. injection He2' as <-.
      case_decide; [done|]. by apply (wf_tail c Hwf Hs2 k2 l2).
Qed.

(* ent.value = value *)
Lemma wf_set_value c l e v :
  wf c → mem c !! l = Some e →
  wf {| size := size c; items := items c; head := head c; ring := ring c;
        mem := <[l := set_value e v]> (mem c) |}.
Proof.
  intros Hwf He.
  assert (l < length (mem c))%nat as Hlt by (by apply lookup_lt_Some in He).
  split; simpl; try apply Hwf.
  - intros k2 l2 Hk2.
    destruct (wf_xref c Hwf k2 l2 Hk2) as (e2 & He2 & Hkey2 & Hr2). simpl.
    destruct (decide (l2 = l)) as [->|Hne].
    + exists (set_value e v). rewrite list_lookup_insert_eq by done.
      assert (e2 = e) as -> by congruence. done.
    + exists e2. by rewrite list_lookup_insert_ne.
  - intros i l' Hi. rewrite length_insert. by apply (wf_ptr c Hwf) in Hi.
  - intros Hs2 k2 l2 e2' Hk2 He2'. unfold next_head. simpl.
    destruct (decide (l2 = l)) as [->|Hne].
    + rewrite list_lookup_insert_eq in He2' by done. injection He2' as <-.
      simpl. by apply (wf_tail c Hwf Hs2 k2 l).
    + rewrite list_lookup_insert_ne in He2' by done.
      by apply (wf_tail c Hwf Hs2 k2 l2).
Qed.

(* func Get on a well-formed cache *)
Lemma Get_wf c k :
  wf c → ∃ r c', Get c k = Some (r, c') ∧ wf c' ∧
    size c' = size c ∧ items c' = items c ∧ head c' = head c ∧
    r.2 = resident c k ∧ (items c !! k = None → r = (None, false) ∧ c' = c).
Proof.
  intros Hwf. unfold Get, resident. destruct (items c !! k) as [l|] eqn:Hk.
  - destruct (wf_lookup c k l Hwf Hk) as [e He].
    destruct (promote_wf c k l e Hwf Hk He)
      as (ni & c' & Hp & Hwf' & Hsz & Hit & Hhd & Hml & _).
    rewrite Hp. simpl. rewrite Hml. simpl.
    eexists _, c'. split; [done|]. split_and!; try done.
    all: simpl; symmetry; apply bool_decide_eq_true; eauto.
  - eexists _, c. split; [done|]. split_and!; try done.
    all: simpl; symmetry; apply bool_decide_eq_false; by intros [? ?].
Qed.

Lemma Add_present_wf c k v l :
  wf c → items c !! k = Some l →
  ∃ c', Add c k v = Some (false, c') ∧ wf c' ∧
    size c' = size c ∧ items c' = items c ∧ head c' = head c.
Proof.
  intros Hwf Hk. unfold Add. rewrite Hk.
  destruct (wf_lookup c k l Hwf Hk) as [e He].
  destruct (promote_wf c k l e Hwf Hk He)
    as (ni & c' & Hp & Hwf' & Hsz & Hit & Hhd & Hml & _).
  rewrite Hp. simpl. rewrite Hml. simpl.
  eexists. split; [done|]. split; [by apply wf_set_value|]. done.
Qed.

Lemma Add_absent_wf c k v :
  wf c → items c !! k = None →
  ∃ c', Add c k v = Some (true, c') ∧ wf c' ∧ size c' = size c ∧
    head c' = next_head c ∧ items c' !! k = Some (length (mem c)) ∧
    (∀ k2, k2 ≠ k → items c' !! k2 = None ∨ items c' !! k2 = items c !! k2).
Proof.
  intros Hwf Hk. unfold Add. rewrite Hk.
  pose proof (wf_size c Hwf) as Hs. pose proof (wf_head c Hwf) as Hh.
  pose proof (wf_ring c Hwf) as Hlen.
  fold (next_head c).
  pose proof (next_head_range c Hs Hh) as Hnr.
  set (h := next_head c) in *.
  set (t := if decide (h - 1 < 0) then h - 1 + size c else h - 1).
  assert (0 <= t < size c) as Htr by (unfold t; case_decide; lia).
  destruct (ring_get_total (ring c) t) as [d Hd]; [lia|].
  rewrite Hd. simpl.
  pose proof Hd as Hd'. apply ring_get_Some in Hd' as [_ Hd'].
  assert (∃ its, match d with
                 | Some p => e ← mem c !! p; Some (delete (key e) (items c))
                 | None => Some (items c)
                 end = Some its ∧
          (∀ k2 l2, its !! k2 = Some l2 → items c !! k2 = Some l2) ∧
          (∀ k2, its !! k2 = None ∨ its !! k2 = items c !! k2) ∧
          (∀ k2 l2, its !! k2 = Some l2 → d ≠ Some l2))
    as (its & -> & Hsub & Hor & Hdel).
  { destruct d as [p|].
    - pose proof (wf_ptr c Hwf _ _ Hd') as Hp.
      destruct (lookup_lt_is_Some_2 (mem c) p Hp) as [e' He'].
      rewrite He'. simpl. eexists. split; [done|]. split; [|split].
      + intros k2 l2 Hl. apply lookup_delete_Some in Hl. tauto.
      + intros k2. destruct (decide (key e' = k2)) as [->|Hne].
        * left. apply lookup_delete_eq.
        * right. by apply lookup_delete_ne.
      + intros k2 l2 Hl [= ->]. apply lookup_delete_Some in Hl as [Hne Hl].
        destruct (wf_xref c Hwf k2 l2 Hl) as (e2 & He2 & Hkey2 & _).
        congruence.
    - eexists. split; [done|]. split; [done|]. split; [by right|done]. }
  simpl. rewrite ring_set_Some by lia. simpl.
  eexists. split; [done|]. simpl.
  assert (∀ k2 l2 e2, k2 ≠ k → its !! k2 = Some l2 → mem c !! l2 = Some e2 →
            index e2 ≠ h ∧ index e2 ≠ t) as Hfree.
  { intros k2 l2 e2 Hne Hl He2. pose proof (Hsub _ _ Hl) as Hl'.
    destruct (wf_index c k2 l2 e2 Hwf Hl' He2) as (Hkey2 & Hi2 & Hr2).
    assert (index e2 ≠ t) as Ht.
    { intros Heq. rewrite Heq in Hr2. apply (Hdel _ _ Hl). congruence. }
    split; [|done].
    destruct (decide (2 <= size c)) as [Hs2|Hs1].
    - by apply (wf_tail c Hwf Hs2 k2 l2).
    - assert (h = t) as Heq by lia. by rewrite Heq. }
  split; [|split; [done|split; [done|split]]].
  - split; simpl.
    + done.
    + done.
    + rewrite length_insert. done.
    + intros k2 l2 Hl. simpl in *.
      destruct (decide (k2 = k)) as [->|Hne].
      * rewrite lookup_insert_eq in Hl. injection Hl as <-.
        eexists. split; [apply list_lookup_middle; done|].
        split; [done|]. simpl. apply ring_get_Some. split; [lia|].
        apply list_lookup_insert_eq. lia.
      * rewrite lookup_insert_ne in Hl by done.
        destruct (wf_lookup c k2 l2 Hwf (Hsub _ _ Hl)) as [e2 He2].
        destruct (wf_index c k2 l2 e2 Hwf (Hsub _ _ Hl) He2)
          as (Hkey2 & Hi2 & Hr2).
        destruct (Hfree k2 l2 e2 Hne Hl He2) as [Hnh _].
        exists e2. split; [by apply lookup_app_l_Some|]. split; [done|].
        apply ring_get_Some. split; [lia|].
        rewrite list_lookup_insert_ne by lia. done.
    + intros i l' Hi. rewrite length_app. simpl.
      destruct (decide (Z.to_nat h = i)) as [<-|Hn].
      * rewrite list_lookup_insert_eq in Hi by lia. injection Hi as <-. lia.
      * rewrite list_lookup_insert_ne in Hi by done.
        apply (wf_ptr c Hwf) in Hi. lia.
    + intros Hs2 k2 l2 e2 Hl He2. unfold next_head. simpl. fold t.
      destruct (decide (k2 = k)) as [->|Hne].
      * rewrite lookup_insert_eq in Hl. injection Hl as <-.
        rewrite list_lookup_middle in He2 by done. injection He2 as <-.
        simpl. unfold t. case_decide; lia.
      * rewrite lookup_insert_ne in Hl by done.
        destruct (wf_lookup c k2 l2 Hwf (Hsub _ _ Hl)) as [e2' He2'].
        rewrite (lookup_app_l_Some _ _ _ _ He2') in He2. injection He2 as <-.
        by destruct (Hfree k2 l2 e2' Hne Hl He2').
  - apply lookup_insert_eq.
  - intros k2 Hne. rewrite lookup_insert_ne by done. apply Hor.
Qed.

Lemma Remove_wf c k :
  wf c → ∃ c', Remove c k = Some (resident c k, c') ∧ wf c' ∧
    size c' = size c ∧ head c' = head c ∧ items c' = delete k (items c).
Proof.
  intros Hwf. unfold Remove, resident.
  destruct (items c !! k) as [l|] eqn:Hk.
  - rewrite bool_decide_eq_true_2 by eauto.
    destruct (wf_lookup c k l Hwf Hk) as [e He].
    destruct (wf_index c k l e Hwf Hk He) as (Hkey & Hcur & Hrc).
    pose proof (wf_ring c Hwf) as Hlen.
    rewrite He. simpl. rewrite ring_set_Some by lia. simpl.
    eexists. split; [done|]. split; [|done].
    split; simpl; try apply Hwf.
    + rewrite length_insert. done.
    + intros k2 l2 Hl. simpl in *.
      apply lookup_delete_Some in Hl as [Hne Hl].
      destruct (wf_lookup c k2 l2 Hwf Hl) as [e2 He2].
      destruct (wf_index c k2 l2 e2 Hwf Hl He2) as (Hkey2 & Hi2 & Hr2).
      exists e2. split; [done|]. split; [done|].
      apply ring_get_Some. split; [lia|].
      assert (index e ≠ index e2) as Hni.
      { intros Heq.
        destruct (wf_slot_inj c k k2 l l2 e e2 Hwf Hk Hl He He2 Heq). done. }
      rewrite list_lookup_insert_ne by lia. done.
    + intros i l' Hi. simpl in *.
      destruct (decide (Z.to_nat (index e) = i)) as [<-|Hn].
      * rewrite list_lookup_insert_eq in Hi by lia. done.
      * rewrite list_lookup_insert_ne in Hi by done.
        by apply (wf_ptr c Hwf) in Hi.
    + intros Hs2 k2 l2 e2 Hl He2. simpl in *.
      apply lookup_delete_Some in Hl as [Hne Hl].
      by apply (wf_tail c Hwf Hs2 k2 l2).
  - rewrite bool_decide_eq_false_2 by (by intros [? ?]).
    exists c. split; [done|]. split; [done|]. split_and!; try done.
    symmetry. by apply delete_id.
Qed.

(* an empty cache of a positive size *)
Lemma wf_empty (sz : Z) (m : list (lruElem K V)) :
  0 < sz →
  wf {| size := sz; items := ∅; head := 0;
        ring := replicate (Z.to_nat sz) None; mem := m |}.
Proof.
  intros Hs. split; simpl.
  - done.
  - lia.
  - rewrite length_replicate. lia.
  - intros k l Hl. simpl in Hl. by rewrite lookup_empty in Hl.
  - intros i l Hl. apply lookup_replicate in Hl as [? _]. done.
  - intros _ k l e Hl. simpl in Hl. by rewrite lookup_empty in Hl.
Qed.

Lemma Purge_wf c :
  wf c → ∃ c', Purge c = Some (tt, c') ∧ wf c' ∧ size c' = size c ∧
    items c' = ∅.
Proof.
  intros Hwf. pose proof (wf_size c Hwf) as Hs.
  unfold Purge, make_ring. rewrite decide_True by lia. simpl.
  eexists. split; [done|]. split; [by apply wf_empty|done].
Qed.

Lemma NewUnsynched_wf (sz : Z) :
  0 < sz → ∃ c : lruish K V, NewUnsynched sz = Some (inl c) ∧ wf c ∧
    size c = sz ∧ items c = ∅ ∧ head c = 0.
Proof.
  intros Hs. unfold NewUnsynched, make_ring.
  rewrite decide_False by lia. rewrite decide_True by lia. simpl.
  eexists. split; [done|]. split; [by apply wf_empty|done].
Qed.

Lemma Add_wf c k v :
  wf c → ∃ c', Add c k v = Some (negb (resident c k), c') ∧ wf c' ∧
    size c' = size c.
Proof.
  intros Hwf. unfold resident. destruct (items c !! k) as [l|] eqn:Hk.
  - destruct (Add_present_wf c k v l Hwf Hk) as (c' & Ha & Hwf' & Hsz & _).
    exists c'. rewrite bool_decide_eq_true_2 by eauto. done.
  - destruct (Add_absent_wf c k v Hwf Hk) as (c' & Ha & Hwf' & Hsz & _).
    exists c'. rewrite bool_decide_eq_false_2 by (by intros [? ?]). done.
Qed.

Lemma Contains_eq c k : Contains c k = Some (resident c k, c).
Proof.
  unfold Contains, resident. destruct (items c !! k) eqn:Hk.
  - by rewrite bool_decide_eq_true_2 by eauto.
  - by rewrite bool_decide_eq_false_2 by (by intros [? ?]).
Qed.

Lemma resident_true c k l : items c !! k = Some l → resident c k = true.
Proof. intros Hk. unfold resident. apply bool_decide_eq_true_2. eauto. Qed.

Lemma resident_false c k : items c !! k = None → resident c k = false.
Proof.
  intros Hk. unfold resident. apply bool_decide_eq_false_2.
  rewrite Hk. by intros [? ?].
Qed.

Lemma Peek_wf c k :
  wf c → ∃ r, Peek c k = Some (r, c) ∧ r.2 = resident c k ∧
    (items c !! k = None → r = (None, false)).
Proof.
  intros Hwf. unfold Peek. destruct (items c !! k) as [l|] eqn:Hk.
  - destruct (wf_lookup c k l Hwf Hk) as [e He]. rewrite He. simpl.
    eexists. split; [done|]. simpl.
    by rewrite (resident_true c k l Hk).
  - eexists. split; [done|]. simpl.
    by rewrite (resident_false c k Hk).
Qed.

Lemma ContainsOrAdd_wf c k v :
  wf c → ∃ r c', ContainsOrAdd c k v = Some (r, c') ∧ wf c' ∧
    size c' = size c ∧ r.1 = resident c k.
Proof.
  intros Hwf. unfold ContainsOrAdd. rewrite Contains_eq. simpl.
  destruct (resident c k) eqn:Hr.
  - eexists _, c. done.
  - destruct (Add_wf c k v Hwf) as (c' & Ha & Hwf' & Hsz). rewrite Ha. simpl.
    eexists _, c'. done.
Qed.

Lemma exec_wf (o : op K V) c :
  wf c → ∃ r c', exec o c = Some (r, c') ∧ wf c' ∧ size c' = size c.
Proof.
  intros Hwf. destruct o as [k v|k|k|k|k v|k| | |]; simpl.
  - destruct (Add_wf c k v Hwf) as (c' & -> & ? & ?). simpl. eauto.
  - destruct (Get_wf c k Hwf) as (r & c' & -> & ? & ? & _). simpl. eauto.
  - destruct (Peek_wf c k Hwf) as (r & -> & _). simpl. eauto.
  - rewrite Contains_eq. simpl. eauto.
  - destruct (ContainsOrAdd_wf c k v Hwf) as (r & c' & -> & ? & ? & _).
    simpl. eauto.
  - destruct (Remove_wf c k Hwf) as (c' & -> & ? & ? & _). simpl. eauto.
  - eauto.
  - eauto.
  - destruct (Purge_wf c Hwf) as (c' & -> & ? & ? & _). simpl. eauto.
Qed.

Lemma run_wf (os : list (op K V)) c :
  wf c → ∃ tr c', run os c = Some (tr, c') ∧ wf c' ∧ size c' = size c.
Proof.
  revert c. induction os as [|o os IH]; intros c Hwf; simpl.
  - eauto.
  - destruct (exec_wf o c Hwf) as (r & c1 & -> & Hwf1 & Hs1). simpl.
    destruct (IH c1 Hwf1) as (tr & c2 & -> & Hwf2 & Hs2). simpl.
    eexists _, c2. split; [done|]. split; [done|]. congruence.
Qed.

Lemma built_wf (sz : Z) (os : list (op K V)) :
  0 < sz → ∃ tr c, built sz os = Some (tr, c) ∧ wf c ∧ size c = sz.
Proof.
  intros Hs. unfold built.
  destruct (NewUnsynched_wf sz Hs) as (c0 & -> & Hwf0 & Hs0 & _).
  destruct (run_wf os c0 Hwf0) as (tr & c & -> & Hwf & Hsz).
  exists tr, c. split; [done|]. split; [done|]. congruence.
Qed.

(** The number of resident keys: each one owns a slot of its own. *)

Lemma slots_NoDup c : wf c → NoDup (slot_of c <$> map_to_list (items c)).
Proof.
  intros Hwf. apply NoDup_fmap_2_strong; [|apply NoDup_map_to_list].
  intros [k1 l1] [k2 l2] H1%elem_of_map_to_list H2%elem_of_map_to_list.
  unfold slot_of. simpl.
  destruct (wf_lookup c k1 l1 Hwf H1) as [e1 He1].
  destruct (wf_lookup c k2 l2 Hwf H2) as [e2 He2].
  rewrite He1, He2. simpl. intros Heq.
  destruct (wf_slot_inj c k1 k2 l1 l2 e1 e2 Hwf H1 H2 He1 He2 Heq). congruence.
Qed.

Lemma slots_range c i :
  wf c → i ∈ slot_of c <$> map_to_list (items c) →
  0 <= i < size c ∧ (2 <= size c → i ≠ next_head c).
Proof.
  intros Hwf ([k l] & -> & Hkl%elem_of_map_to_list)%list_elem_of_fmap.
  unfold slot_of. simpl.
  destruct (wf_lookup c k l Hwf Hkl) as [e He]. rewrite He. simpl.
  destruct (wf_index c k l e Hwf Hkl He) as (_ & Hi & _).
  split; [done|]. intros Hs2. by apply (wf_tail c Hwf Hs2 k l).
Qed.

Lemma wf_len_le c : wf c → len c <= size c.
Proof.
  intros Hwf. unfold len. rewrite <- length_map_to_list.
  rewrite <- (length_fmap (slot_of c)).
  assert (slot_of c <$> map_to_list (items c) ⊆+ seqZ 0 (size c)) as Hsub.
  { apply NoDup_submseteq; [by apply slots_NoDup|].
    intros i Hi. apply elem_of_seqZ.
    destruct (slots_range c i Hwf Hi). lia. }
  pose proof (wf_size c Hwf).
  apply submseteq_length in Hsub. rewrite length_seqZ in Hsub. lia.
Qed.

Lemma wf_len_lt c : wf c → 2 <= size c → len c < size c.
Proof.
  intros Hwf Hs2. unfold len. rewrite <- length_map_to_list.
  rewrite <- (length_fmap (slot_of c)).
  assert (next_head c :: (slot_of c <$> map_to_list (items c))
            ⊆+ seqZ 0 (size c)) as Hsub.
  { apply NoDup_submseteq.
    - apply NoDup_cons. split; [|by apply slots_NoDup].
      intros Hi. destruct (slots_range c _ Hwf Hi) as [_ Hne]. by apply Hne.
    - intros i [->|Hi]%elem_of_cons; apply elem_of_seqZ.
      + pose proof (next_head_range c (wf_size c Hwf) (wf_head c Hwf)). lia.
      + destruct (slots_range c i Hwf Hi). lia. }
  apply submseteq_length in Hsub. rewrite length_seqZ in Hsub.
  simpl in Hsub. lia.
Qed.

End Preservation.

(** ** Reachable caches *)

Section Reachable.
Context {K : Type} `{Countable K} {V : Type}.
Implicit Types (c : lruish K V) (k : K) (v : V) (l : loc).

Lemma built_inv (sz : Z) (os : list (op K V)) tr c :
  built sz os = Some (tr, c) → 0 < sz ∧ wf c ∧ size c = sz.
Proof.
  intros Hb. destruct (decide (0 < sz)) as [Hs|Hs].
  - destruct (built_wf sz os Hs) as (tr' & c' & Hb' & Hwf & Hsz).
    rewrite Hb in Hb'. injection Hb' as <- <-. done.
  - unfold built, NewUnsynched in Hb. rewrite decide_True in Hb by lia. done.
Qed.

Lemma Get_halves c k d :
  wf c → distance c k = Some d →
  ∃ r c', Get c k = Some (r, c') ∧ wf c' ∧ distance c' k = Some (d / 2).
Proof.
  intros Hwf Hd. unfold distance in Hd.
  destruct (items c !! k) as [l|] eqn:Hk; [|done]. simpl in Hd.
  destruct (mem c !! l) as [e|] eqn:He; [|done]. simpl in Hd.
  injection Hd as <-.
  destruct (promote_wf c k l e Hwf Hk He)
    as (ni & c' & Hp & Hwf' & Hsz & Hit & Hhd & Hml & Hpos).
  unfold Get. rewrite Hk, Hp. simpl. rewrite Hml. simpl.
  eexists _, c'. split; [done|]. split; [done|].
  unfold distance. rewrite Hit, Hk. simpl. rewrite Hml. simpl.
  by rewrite Hpos.
Qed.

Lemma gets_halve (n : nat) c k d :
  wf c → distance c k = Some d →
  ∃ tr c', run (gets n k) c = Some (tr, c') ∧ wf c' ∧
           distance c' k = Some (d / 2 ^ Z.of_nat n).
Proof.
  revert c d. induction n as [|n IH]; intros c d Hwf Hd.
  - exists [], c. simpl. by rewrite Z.div_1_r.
  - destruct (Get_halves c k d Hwf Hd) as (r & c1 & Hg & Hwf1 & Hd1).
    destruct (IH c1 (d / 2) Hwf1 Hd1) as (tr & c2 & Hr & Hwf2 & Hd2).
    simpl. rewrite Hg. simpl. fold (gets (V:=V) n k). rewrite Hr. simpl.
    eexists _, c2. split; [done|]. split; [done|].
    rewrite Hd2. f_equal.
    rewrite Nat2Z.inj_succ, Z.pow_succ_r by lia.
    rewrite Z.div_div by lia. done.
Qed.

Lemma distance_range c k d :
  wf c → distance c k = Some d → 0 <= d < size c.
Proof.
  intros Hwf Hd. unfold distance in Hd.
  destruct (items c !! k) as [l|] eqn:Hk; [|done]. simpl in Hd.
  destruct (mem c !! l) as [e|] eqn:He; [|done]. simpl in Hd.
  injection Hd as <-.
  destruct (wf_index c k l e Hwf Hk He) as (_ & Hi & _).
  apply position_range; [apply Hwf..|done].
Qed.

(* Peek and Contains in a run change nothing *)
Lemma run_skip_observers (os : list (op K V)) c :
  wf c →
  ∃ tr c', run os c = Some (tr, c') ∧
    run (List.filter is_mutating os) c =
      Some (List.filter (λ x, is_mutating x.1) tr, c').
Proof.
  revert c. induction os as [|o os IH]; intros c Hwf.
  - exists [], c. done.
  - destruct (exec_wf o c Hwf) as (r & c1 & He & Hwf1 & _).
    assert (is_mutating o = false → c1 = c) as Hsame.
    { destruct o; try discriminate; intros _; simpl in He.
      - destruct (Peek_wf c k Hwf) as (r' & Hp & _). rewrite Hp in He.
        simpl in He. congruence.
      - rewrite Contains_eq in He. simpl in He. congruence. }
    destruct (IH c1 Hwf1) as (tr & c2 & Hr & Hf).
    exists ((o, r) :: tr), c2. simpl. rewrite He. simpl. rewrite Hr. simpl.
    split; [done|].
    destruct (is_mutating o) eqn:Hm; simpl.
    + rewrite He. simpl. rewrite Hf. done.
    + rewrite <- (Hsame eq_refl). done.
Qed.

End Reachable.

(** ** The properties of the specification *)

Section Properties.
Context {K : Type} `{Countable K} {V : Type}.
Implicit Types (c : lruish K V) (k : K) (v : V) (l : loc).

(** C3: the wrapper's ContainsOrAdd calls itself while it holds the write
    lock, so it never returns, whatever the cache, the key and the depth
    allowed; on a free lock the inner call waits for the lock the outer
    call holds.  The engine's ContainsOrAdd, and the wrapper as the
    specification describes it, are not what the code runs. *)
Theorem SynchedLRU_ContainsOrAdd_never_returns
    (fuel : nat) (s : SynchedLRU K V) (e : lruish K V) k v :
  (∀ r, SynchedLRU_ContainsOrAdd fuel s k v ≠ Returns r) ∧
  SynchedLRU_ContainsOrAdd (S (S fuel))
    {| lru := e; lock := {| writer := false; readers := O |} |} k v = Blocks.
Proof.
  split; [|reflexivity].
  revert s. induction fuel as [|n IH]; intros s r; simpl; [done|].
  destruct (Lock (lock s)) as [l'|]; [|done].
  specialize (IH {| lru := lru s; lock := l' |}).
  destruct (SynchedLRU_ContainsOrAdd n _ k v) as [[r' c']| | |]; try done.
  by destruct (IH (r', c')).
Qed.

(* what the specification asks of the wrapper: the engine's result, with
   the lock free again *)
Lemma spec_containsOrAdd_returns (e : lruish K V) k v :
  wf e →
  ∃ r e', ContainsOrAdd e k v = Some (r, e') ∧
    spec_Synched_containsOrAdd
      {| lru := e; lock := {| writer := false; readers := O |} |} k v
    = Returns (r, {| lru := e'; lock := {| writer := false; readers := O |} |}).
Proof.
  intros Hwf.
  destruct (ContainsOrAdd_wf e k v Hwf) as (r & e' & Hc & _).
  exists r, e'. split; [done|].
  unfold spec_Synched_containsOrAdd, with_Lock. simpl. by rewrite Hc.
Qed.

(** C5: promotion of a resident entry at slot cur computes
    position = (cur - head) mod capacity and
    newSlot = (head + position / 2) mod capacity, swaps the ring contents
    of cur and newSlot, records newSlot in the promoted entry and cur in a
    displaced live entry, and leaves the key index, the keys and the
    values as they were. *)
Theorem promote_follows_algorithm sz (os : list (op K V)) tr c k l e :
  built sz os = Some (tr, c) → items c !! k = Some l → mem c !! l = Some e →
  let cur := index e in
  let pos := (cur - head c) mod size c in
  let newSlot := (head c + pos / 2) mod size c in
  ∃ c', promote c l = Some c' ∧
    ring_get (ring c) cur = Some (Some l) ∧
    ring_get (ring c') cur = ring_get (ring c) newSlot ∧
    ring_get (ring c') newSlot = ring_get (ring c) cur ∧
    (∀ i, i ≠ cur → i ≠ newSlot → ring_get (ring c') i = ring_get (ring c) i) ∧
    index <$> mem c' !! l = Some newSlot ∧
    (∀ k2 l2, items c !! k2 = Some l2 → l2 ≠ l →
       index <$> mem c' !! l2 =
         if decide (ring_get (ring c) newSlot = Some (Some l2))
         then Some cur else index <$> mem c !! l2) ∧
    items c' = items c ∧ head c' = head c ∧ size c' = size c ∧
    (∀ l2, key <$> mem c' !! l2 = key <$> mem c !! l2 ∧
           value <$> mem c' !! l2 = value <$> mem c !! l2).
Proof.
  intros Hb Hk He cur pos newSlot.
  destruct (built_inv sz os tr c Hb) as (_ & Hwf & _).
  destruct (promote_spec c k l e Hwf Hk He)
    as (ni & d & c' & Hni & Hd & Hp & Hsz & Hit & Hhd & Hr & Hlm & Hml & Hmo).
  destruct (wf_index c k l e Hwf Hk He) as (Hkey & Hcur & Hrc).
  pose proof (wf_size c Hwf) as Hs. pose proof (wf_head c Hwf) as Hh.
  pose proof (wf_ring c Hwf) as Hlen.
  assert (ni = newSlot) as ->.
  { rewrite newIndex_mod in Hni by done. rewrite position_mod in Hni by done.
    by injection Hni. }
  destruct (position_newIndex c (index e) newSlot Hs Hh Hcur)
    as [Hnr _]; [by rewrite newIndex_mod, position_mod|].
  fold cur in Hcur, Hrc, Hr, Hmo.
  assert (ring_get (ring c) newSlot = Some d) as Hgn
    by (apply ring_get_Some; split; [lia|done]).
  assert (ring_get (ring c) cur = Some (Some l)) as Hgc
    by (apply ring_get_Some; split; [lia|done]).
  exists c'. split; [done|]. split; [done|]. split_and!; try done.
  - rewrite Hgn. apply ring_get_Some. split; [lia|]. rewrite Hr.
    destruct (decide (newSlot = cur)) as [Heq|Hne].
    + rewrite Heq in *. rewrite list_lookup_insert_eq
        by (rewrite length_insert; lia). congruence.
    + rewrite list_lookup_insert_ne by lia.
      apply list_lookup_insert_eq. lia.
  - rewrite Hgc. apply ring_get_Some. split; [lia|]. rewrite Hr.
    apply list_lookup_insert_eq. rewrite length_insert. lia.
  - intros i Hic Hin. unfold ring_get. case_decide; [|done].
    rewrite Hr. rewrite !list_lookup_insert_ne by lia. done.
  - by rewrite Hml.
  - intros k2 l2 Hk2 Hne.
    destruct (wf_lookup c k2 l2 Hwf Hk2) as [e2 He2].
    rewrite (Hmo l2 e2 Hne He2), He2, Hgn. simpl.
    destruct (decide (d = Some l2)) as [->|Hd2].
    + by rewrite decide_True.
    + rewrite decide_False by congruence. done.
  - intros l2. destruct (decide (l2 = l)) as [->|Hne].
    + rewrite Hml, He. done.
    + destruct (mem c !! l2) as [e2|] eqn:He2.
      * rewrite (Hmo l2 e2 Hne He2). by case_decide.
      * apply lookup_ge_None in He2. rewrite <- Hlm in He2.
        apply lookup_ge_None in He2. by rewrite He2.
Qed.

(** C6: a cache built with a positive capacity and filled by Add calls
    with distinct keys answers every call, and at every point of the
    sequence Len is at most the capacity.  (The proof does not need the
    keys to be distinct.) *)
Theorem Len_never_exceeds_capacity sz (kvs : list (K * V)) (n : nat) :
  0 < sz → NoDup kvs.*1 →
  ∃ tr c, built sz (adds (take n kvs)) = Some (tr, c) ∧
          Len c = Some (len c, c) ∧ len c <= sz.
Proof.
  intros Hs _.
  destruct (built_wf sz (adds (take n kvs)) Hs) as (tr & c & Hb & Hwf & Hsz).
  exists tr, c. split; [done|]. split; [done|].
  rewrite <- Hsz. by apply wf_len_le.
Qed.

(** C7: whatever operations are run on a constructed cache (Add, Get,
    Peek, Contains, ContainsOrAdd, Remove, Keys, Len, Purge), they all
    return and afterwards every key of the index maps to an element that
    carries this key and whose recorded slot holds exactly this element. *)
Theorem operations_preserve_cross_reference sz (os : list (op K V)) :
  0 < sz → ∃ tr c, built sz os = Some (tr, c) ∧ xref c.
Proof.
  intros Hs. destruct (built_wf sz os Hs) as (tr & c & Hb & Hwf & _).
  exists tr, c. split; [done|]. apply Hwf.
Qed.

(** C8: on a constructed cache Peek and Contains return the very state
    they were given (index, ring, head and elements), and a run with Peek
    and Contains calls interleaved anywhere ends in the same state, with
    the same results for every other call, as the run without them. *)
Theorem Peek_Contains_change_nothing sz (os0 os : list (op K V)) tr0 c k :
  built sz os0 = Some (tr0, c) →
  (∃ r, Peek c k = Some (r, c)) ∧
  (∃ b, Contains c k = Some (b, c)) ∧
  ∃ tr c', run os c = Some (tr, c') ∧
    run (List.filter is_mutating os) c =
      Some (List.filter (λ x, is_mutating x.1) tr, c').
Proof.
  intros Hb. destruct (built_inv sz os0 tr0 c Hb) as (_ & Hwf & _).
  split; [|split].
  - destruct (Peek_wf c k Hwf) as (r & Hp & _). eauto.
  - rewrite Contains_eq. eauto.
  - by apply run_skip_observers.
Qed.

(** C9: NewUnsynched returns an error exactly when the size is not
    positive; on a cache it built every sequence of operations returns,
    every further operation returns, and a key that is not resident is
    answered by a false flag: Get and Peek give (nil, false), Contains and
    Remove give false, and the cache is left as it was. *)
Theorem only_construction_fails sz (os : list (op K V)) (o : op K V) k :
  ((∃ err, NewUnsynched (K:=K) (V:=V) sz = Some (inr err)) ↔ sz <= 0) ∧
  (0 < sz →
   ∃ tr c, built sz os = Some (tr, c) ∧
     (∃ r c', exec o c = Some (r, c')) ∧
     (resident c k = false →
        Get c k = Some ((None, false), c) ∧
        Peek c k = Some ((None, false), c) ∧
        Contains c k = Some (false, c) ∧
        Remove c k = Some (false, c))).
Proof.
  split.
  - unfold NewUnsynched, make_ring. case_decide as Hs.
    + split; [done|]. eauto.
    + rewrite decide_True by lia. simpl.
      split; [by intros [? ?]|lia].
  - intros Hs. destruct (built_wf sz os Hs) as (tr & c & Hb & Hwf & _).
    exists tr, c. split; [done|]. split.
    + destruct (exec_wf o c Hwf) as (r & c' & He & _). eauto.
    + intros Hr.
      assert (items c !! k = None) as Hk.
      { destruct (items c !! k) as [l|] eqn:Hk; [|done].
        by rewrite (resident_true c k l Hk) in Hr. }
      unfold Get, Peek, Contains, Remove. rewrite Hk. done.
Qed.

(** C10: with a capacity of at least 2 every sequence of operations on a
    constructed cache returns and leaves Len strictly below the capacity:
    the slot that the next insertion will write never holds a resident
    entry. *)
Theorem Len_stays_below_capacity sz (os : list (op K V)) :
  2 <= sz →
  ∃ tr c, built sz os = Some (tr, c) ∧ Len c = Some (len c, c) ∧ len c < sz.
Proof.
  intros Hs.
  destruct (built_wf sz os ltac:(lia)) as (tr & c & Hb & Hwf & Hsz).
  exists tr, c. split; [done|]. split; [done|].
  rewrite <- Hsz. apply wf_len_lt; [done|lia].
Qed.

(** C4, amended: a key resident at distance d > 0 from the head is at
    distance 0 after floor(log2 d) + 1 consecutive Get calls on it; each
    call halves the distance, rounding down. *)
Theorem Get_converges_to_head sz (os : list (op K V)) tr c k d :
  built sz os = Some (tr, c) → distance c k = Some d → 0 < d →
  ∃ tr' c', run (gets (Z.to_nat (Z.log2 d + 1)) k) c = Some (tr', c') ∧
            distance c' k = Some 0.
Proof.
  intros Hb Hd Hpos. destruct (built_inv sz os tr c Hb) as (_ & Hwf & _).
  destruct (gets_halve (Z.to_nat (Z.log2 d + 1)) c k d Hwf Hd)
    as (tr' & c' & Hr & _ & Hd').
  exists tr', c'. split; [done|]. rewrite Hd'. f_equal.
  pose proof (Z.log2_nonneg d) as Hl.
  rewrite Z2Nat.id by lia.
  apply Z.div_small. pose proof (Z.log2_spec d Hpos) as Hsp.
  rewrite <- Z.add_1_r in Hsp. lia.
Qed.

End Properties.

(** ** The scenarios, evaluated *)

(** C1: in the scenario of the specification (capacity 2) the first Add,
    into an empty cache, returns true although Len goes from 0 to 1 and
    nothing was evicted; Add returns true for every key that is not
    resident. *)
Theorem Add_reports_eviction_while_filling :
  results
    (built 2 [OpLen; OpAdd 1 "a"; OpLen; OpAdd 2 "b"; OpLen; OpAdd 2 "z"]%string)
  = Some [RetLen 0; RetBool true; RetLen 1; RetBool true; RetLen 1;
          RetBool false].
Proof. vm_compute. reflexivity. Qed.

(** C2: the capacity-2 scenario ends with keys 1 and 2 gone, key 3
    resident and Len 1; the README's loop of 256 insertions into a cache
    of 128 ends with Len 127, not 128. *)
Theorem scenarios_end_one_entry_short :
  results (built 2 scenario_capacity_2)
  = Some [RetBool true; RetBool true; RetBool true;
          RetBool false; RetBool false; RetBool true; RetLen 1] ∧
  drop 256 <$> results (built 128 scenario_capacity_128)
  = Some [RetLen 127; RetBool false; RetBool true].
Proof. split; vm_compute; reflexivity. Qed.

(** C4 as stated fails: with three keys in a cache of four slots, key 1
    is at distance 2 from the head; after ceil(log2 2) = 1 Get it is at
    distance 1, not 0. *)
Lemma ceil_log2_gets_do_not_converge :
  ¬ converges_after (K:=Z) (V:=string) Z.log2_up.
Proof.
  intros Hc.
  destruct (built 4 three_of_four) as [[tr c]|] eqn:Hb; [|by vm_compute in Hb].
  destruct (Hc 4 three_of_four tr c 1 2 Hb) as (tr' & c' & Hr & Hd).
  - vm_compute in Hb. injection Hb as <- <-. vm_compute. reflexivity.
  - lia.
  - vm_compute in Hb. injection Hb as <- <-.
    vm_compute in Hr. injection Hr as <- <-.
    vm_compute in Hd. discriminate.
Qed.

(** ** Instances of the properties *)

Lemma built_three_of_four :
  built 4 three_of_four = Some (trace_three_of_four, cache_three_of_four).
Proof. vm_compute. reflexivity. Defined.

Lemma promote_follows_algorithm_witness :
  ∃ c', promote cache_three_of_four 0%nat = Some c' ∧
        ring_get (ring c') 3 = ring_get (ring cache_three_of_four) 2 ∧
        ring_get (ring c') 2 = ring_get (ring cache_three_of_four) 3 ∧
        index <$> mem c' !! 0%nat = Some 2 ∧
        items c' = items cache_three_of_four.
Proof.
  destruct (promote_follows_algorithm 4 three_of_four trace_three_of_four
              cache_three_of_four 1 0%nat
              {| value := "a"%string; key := 1; index := 3 |})
    as (c' & Hp & _ & Hs1 & Hs2 & _ & Hi & _ & Hit & _).
  - vm_compute. reflexivity.
  - vm_compute. reflexivity.
  - vm_compute. reflexivity.
  - exists c'. split; [exact Hp|]. split; [exact Hs1|]. split; [exact Hs2|].
    split; [exact Hi|exact Hit].
Defined.

Lemma Get_converges_to_head_witness :
  ∃ tr' c', run (gets 2 1) cache_three_of_four = Some (tr', c') ∧
            distance c' 1 = Some 0.
Proof.
  apply (Get_converges_to_head 4 three_of_four trace_three_of_four
           cache_three_of_four 1 2).
  - vm_compute. reflexivity.
  - vm_compute. reflexivity.
  - lia.
Defined.

Lemma Len_never_exceeds_capacity_witness :
  ∃ tr c,
    built 2 (adds (take 3 [(1, "a"); (2, "b"); (3, "c")]%string))
      = Some (tr, c) ∧
    Len c = Some (len c, c) ∧ len c <= 2.
Proof.
  apply (Len_never_exceeds_capacity 2 [(1, "a"); (2, "b"); (3, "c")]%string 3).
  - lia.
  - apply (bool_decide_unpack _). vm_compute. exact I.
Defined.

Lemma operations_preserve_cross_reference_witness :
  ∃ tr c, built 2 scenario_capacity_2 = Some (tr, c) ∧ xref c.
Proof. apply (operations_preserve_cross_reference 2 scenario_capacity_2). lia. Defined.

Lemma Peek_Contains_change_nothing_witness :
  (∃ r, Peek cache_three_of_four 1 = Some (r, cache_three_of_four)) ∧
  (∃ b, Contains cache_three_of_four 1 = Some (b, cache_three_of_four)) ∧
  ∃ tr c', run peeks_between_adds cache_three_of_four = Some (tr, c') ∧
    run (List.filter is_mutating peeks_between_adds) cache_three_of_four =
      Some (List.filter (λ x, is_mutating x.1) tr, c').
Proof.
  apply (Peek_Contains_change_nothing 4 three_of_four peeks_between_adds
           trace_three_of_four cache_three_of_four 1).
  vm_compute. reflexivity.
Defined.

Lemma only_construction_fails_witness :
  ∃ tr c, built 2 scenario_capacity_2 = Some (tr, c) ∧
    (∃ r c', exec (OpGet 7) c = Some (r, c')) ∧
    (resident c 7 = false →
       Get c 7 = Some ((None, false), c) ∧
       Peek c 7 = Some ((None, false), c) ∧
       Contains c 7 = Some (false, c) ∧
       Remove c 7 = Some (false, c)).
Proof.
  apply (only_construction_fails 2 scenario_capacity_2 (OpGet 7) 7). lia.
Defined.

Lemma Len_stays_below_capacity_witness :
  ∃ tr c, built 2 scenario_capacity_2 = Some (tr, c) ∧
          Len c = Some (len c, c) ∧ len c < 2.
Proof. apply (Len_stays_below_capacity 2 scenario_capacity_2). lia. Defined.

(** ** Further facts: what each step does to slots, distances and values *)

Section Steps.
Context {K : Type} `{Countable K} {V : Type}.
Implicit Types (c : lruish K V) (k : K) (v : V) (l : loc).

Lemma position_inj c i j :
  0 < size c → 0 <= head c < size c → 0 <= i < size c → 0 <= j < size c →
  position c i = position c j → i = j.
Proof. intros Hs Hh Hi Hj. unfold position. repeat case_decide; lia. Qed.

Lemma tail_index_range c :
  0 < size c → 0 <= head c < size c → 0 <= tail_index c < size c.
Proof.
  intros Hs Hh. pose proof (next_head_range c Hs Hh).
  unfold tail_index. case_decide; lia.
Qed.

(* the slot Add inspects is the one at distance size - 2 *)
Lemma position_tail_index c i :
  2 <= size c → 0 <= head c < size c → 0 <= i < size c →
  position c i = size c - 2 ↔ i = tail_index c.
Proof.
  intros Hs Hh Hi. unfold position, tail_index, next_head.
  repeat case_decide; lia.
Qed.

(* once the head has moved, every other slot is one further away *)
Lemma position_after_insert c c' i :
  0 < size c → 0 <= head c < size c → 0 <= i < size c →
  size c' = size c → head c' = next_head c → i ≠ next_head c →
  position c' i = position c i + 1.
Proof.
  intros Hs Hh Hi Hsz Hhd Hne. unfold position. rewrite Hsz, Hhd.
  unfold next_head in *. repeat case_decide; lia.
Qed.

Lemma stored_Some c k l e :
  items c !! k = Some l → mem c !! l = Some e → stored c k = Some (value e).
Proof. intros Hk He. unfold stored. rewrite Hk. simpl. by rewrite He. Qed.

Lemma distance_Some c k l e :
  items c !! k = Some l → mem c !! l = Some e →
  distance c k = Some (position c (index e)).
Proof. intros Hk He. unfold distance. rewrite Hk. simpl. by rewrite He. Qed.

Lemma stored_None c k : items c !! k = None → stored c k = None.
Proof. intros Hk. unfold stored. by rewrite Hk. Qed.

Lemma distance_None c k : items c !! k = None → distance c k = None.
Proof. intros Hk. unfold distance. by rewrite Hk. Qed.

Lemma distance_is_Some c k :
  wf c → is_Some (distance c k) ↔ resident c k = true.
Proof.
  intros Hwf. destruct (items c !! k) as [l|] eqn:Hk.
  - destruct (wf_lookup c k l Hwf Hk) as [e He].
    rewrite (distance_Some c k l e Hk He), (resident_true c k l Hk).
    split; eauto.
  - rewrite (distance_None c k Hk), (resident_false c k Hk).
    split; [by intros [? ?]|done].
Qed.

Lemma Peek_stored c k :
  wf c → Peek c k = Some ((stored c k, resident c k), c).
Proof.
  intros Hwf. unfold Peek. destruct (items c !! k) as [l|] eqn:Hk.
  - destruct (wf_lookup c k l Hwf Hk) as [e He]. rewrite He. simpl.
    by rewrite (stored_Some c k l e Hk He), (resident_true c k l Hk).
  - by rewrite (stored_None c k Hk), (resident_false c k Hk).
Qed.

(* the target of a promotion is never the slot of the next insertion *)
Lemma newIndex_not_next_head c k l e ni :
  wf c → items c !! k = Some l → mem c !! l = Some e →
  newIndex c (index e) = Some ni → 2 <= size c → ni ≠ next_head c.
Proof.
  intros Hwf Hk He Hni Hs2.
  destruct (wf_index c k l e Hwf Hk He) as (_ & Hcur & _).
  pose proof (wf_size c Hwf) as Hs. pose proof (wf_head c Hwf) as Hh.
  destruct (position_newIndex c (index e) ni Hs Hh Hcur Hni) as [Hnir Hpos].
  pose proof (wf_tail c Hwf Hs2 k l e Hk He) as Hte.
  intros Heq. apply position_next_head in Heq; [|done..].
  assert (position c (index e) ≠ size c - 1) as Hpe
    by (by rewrite position_next_head).
  pose proof (position_range c (index e) Hs Hh Hcur) as Hpr.
  rewrite Hpos in Heq.
  assert (position c (index e) / 2 <= position c (index e))
    by (apply Z.div_le_upper_bound; lia).
  lia.
Qed.

(* a resident element sits in one slot only *)
Lemma tidy_slot c (i : nat) k l e :
  wf c → tidy c → items c !! k = Some l → mem c !! l = Some e →
  ring c !! i = Some (Some l) →
  Z.of_nat i ≠ next_head c ∨ size c = 1 → index e = Z.of_nat i.
Proof.
  intros Hwf Hty Hk He Hr Hside.
  destruct (Hty i l Hr Hside) as (k' & e' & _ & He' & Hi). congruence.
Qed.

Lemma promote_tidy c k l e c' :
  wf c → tidy c → items c !! k = Some l → mem c !! l = Some e →
  promote c l = Some c' → tidy c'.
Proof.
  intros Hwf Hty Hk He Hp'.
  destruct (promote_spec c k l e Hwf Hk He)
    as (ni & d & c2 & Hni & Hd & Hp & Hsz & Hit & Hhd & Hr & Hlm & Hml & Hmo).
  assert (c2 = c') as -> by congruence. clear Hp'.
  destruct (wf_index c k l e Hwf Hk He) as (Hkey & Hcur & Hrc).
  pose proof (wf_size c Hwf) as Hs. pose proof (wf_head c Hwf) as Hh.
  pose proof (wf_ring c Hwf) as Hlen.
  destruct (position_newIndex c (index e) ni Hs Hh Hcur Hni) as [Hnir _].
  assert (next_head c' = next_head c) as Hnh
    by (unfold next_head; by rewrite Hsz, Hhd).
  assert (Z.of_nat (Z.to_nat ni) ≠ next_head c ∨ size c = 1) as Hside_ni.
  { destruct (decide (2 <= size c)) as [Hs2|Hs1]; [left|right; lia].
    rewrite Z2Nat.id by lia.
    by apply (newIndex_not_next_head c k l e). }
  intros i l' Hi Hside. rewrite Hnh, Hsz in Hside. rewrite Hit.
  rewrite Hr in Hi.
  destruct (decide (Z.to_nat ni = i)) as [<-|Hn1].
  { rewrite list_lookup_insert_eq in Hi by (rewrite length_insert; lia).
    injection Hi as <-. exists k, (set_index e ni).
    split; [done|]. split; [done|]. simpl. lia. }
  rewrite list_lookup_insert_ne in Hi by done.
  destruct (decide (Z.to_nat (index e) = i)) as [<-|Hn2].
  { rewrite list_lookup_insert_eq in Hi by lia. injection Hi as ->.
    destruct (Hty _ l' Hd Hside_ni) as (k2 & e2 & Hk2 & He2 & Hi2).
    assert (l' ≠ l) as Hne.
    { intros ->. assert (e2 = e) as -> by congruence. lia. }
    exists k2. eexists. split; [done|].
    rewrite (Hmo l' e2 Hne He2). rewrite decide_True by done.
    split; [done|]. simpl. lia. }
  rewrite list_lookup_insert_ne in Hi by done.
  destruct (Hty i l' Hi Hside) as (k2 & e2 & Hk2 & He2 & Hi2).
  assert (l' ≠ l) as Hne.
  { intros ->. assert (e2 = e) as -> by congruence. lia. }
  exists k2, e2. split; [done|]. split; [|done].
  rewrite (Hmo l' e2 Hne He2). rewrite decide_False; [done|].
  intros ->.
  pose proof (tidy_slot c _ k2 l' e2 Hwf Hty Hk2 He2 Hd Hside_ni). lia.
Qed.

(* what a promotion leaves alone, and the one entry it moves back *)
Lemma promote_frame c k l e c' d :
  wf c → tidy c → items c !! k = Some l → mem c !! l = Some e →
  promote c l = Some c' → distance c k = Some d →
  (∀ k2, stored c' k2 = stored c k2) ∧
  (∀ k2, k2 ≠ k →
     distance c' k2 =
       if decide (distance c k2 = Some (d / 2)) then Some d
       else distance c k2).
Proof.
  intros Hwf Hty Hk He Hp' Hdist.
  destruct (promote_spec c k l e Hwf Hk He)
    as (ni & dd & c2 & Hni & Hd & Hp & Hsz & Hit & Hhd & Hr & Hlm & Hml & Hmo).
  assert (c2 = c') as -> by congruence. clear Hp'.
  destruct (wf_index c k l e Hwf Hk He) as (Hkey & Hcur & Hrc).
  pose proof (wf_size c Hwf) as Hs. pose proof (wf_head c Hwf) as Hh.
  destruct (position_newIndex c (index e) ni Hs Hh Hcur Hni) as [Hnir Hpos].
  rewrite (distance_Some c k l e Hk He) in Hdist. injection Hdist as <-.
  assert (∀ i, position c' i = position c i) as Hpc
    by (intros i; unfold position; by rewrite Hsz, Hhd).
  assert (Z.of_nat (Z.to_nat ni) ≠ next_head c ∨ size c = 1) as Hside_ni.
  { destruct (decide (2 <= size c)) as [Hs2|Hs1]; [left|right; lia].
    rewrite Z2Nat.id by lia.
    by apply (newIndex_not_next_head c k l e). }
  split.
  - intros k2. unfold stored. rewrite Hit.
    destruct (items c !! k2) as [l2|] eqn:Hk2; [|done]. simpl.
    destruct (decide (l2 = l)) as [->|Hne].
    + by rewrite Hml, He.
    + destruct (wf_lookup c k2 l2 Hwf Hk2) as [e2 He2].
      rewrite (Hmo l2 e2 Hne He2), He2. simpl. by case_decide.
  - intros k2 Hk2k.
    destruct (items c !! k2) as [l2|] eqn:Hk2.
    2: { rewrite (distance_None c k2 Hk2).
         rewrite (distance_None c' k2) by (by rewrite Hit).
         by rewrite decide_False. }
    destruct (wf_lookup c k2 l2 Hwf Hk2) as [e2 He2].
    destruct (wf_index c k2 l2 e2 Hwf Hk2 He2) as (Hkey2 & Hi2 & Hr2).
    assert (l2 ≠ l) as Hne by (intros ->; congruence).
    pose proof (Hmo l2 e2 Hne He2) as He2'.
    assert (items c' !! k2 = Some l2) as Hk2' by (by rewrite Hit).
    rewrite (distance_Some c' k2 l2 _ Hk2' He2').
    rewrite (distance_Some c k2 l2 e2 Hk2 He2).
    destruct (decide (dd = Some l2)) as [->|Hdd].
    + assert (index e2 = ni) as Hin.
      { rewrite (tidy_slot c _ k2 l2 e2 Hwf Hty Hk2 He2 Hd Hside_ni). lia. }
      rewrite decide_True by (by rewrite Hin, Hpos).
      simpl. by rewrite Hpc.
    + rewrite decide_False; [by rewrite Hpc|].
      intros [= Heq]. rewrite <- Hpos in Heq.
      apply position_inj in Heq; [|done..].
      rewrite Heq in Hr2. congruence.
Qed.

(* Add of a key that is not resident, written out *)
Lemma Add_absent_eq c k v :
  wf c → items c !! k = None →
  ∃ d its,
    ring c !! Z.to_nat (tail_index c) = Some d ∧
    (d = None ∧ its = items c ∨
     ∃ p e, d = Some p ∧ mem c !! p = Some e ∧
            its = delete (key e) (items c)) ∧
    Add c k v =
      Some (true,
            {| size := size c;
               items := <[k := length (mem c)]> its;
               head := next_head c;
               ring := <[Z.to_nat (next_head c) := Some (length (mem c))]>
                         (ring c);
               mem := mem c ++
                        [{| value := v; key := k; index := next_head c |}] |}).
Proof.
  intros Hwf Hk. unfold Add. rewrite Hk.
  pose proof (wf_size c Hwf) as Hs. pose proof (wf_head c Hwf) as Hh.
  pose proof (wf_ring c Hwf) as Hlen.
  fold (next_head c). fold (tail_index c).
  pose proof (next_head_range c Hs Hh) as Hnr.
  pose proof (tail_index_range c Hs Hh) as Htr.
  destruct (ring_get_total (ring c) (tail_index c)) as [d Hd]; [lia|].
  rewrite Hd. simpl.
  apply ring_get_Some in Hd as [_ Hd].
  destruct d as [p|].
  - pose proof (wf_ptr c Hwf _ _ Hd) as Hp.
    destruct (lookup_lt_is_Some_2 (mem c) p Hp) as [e He].
    rewrite He. simpl. rewrite ring_set_Some by lia. simpl.
    exists (Some p), (delete (key e) (items c)).
    split; [done|]. split; [right; eauto|done].
  - simpl. rewrite ring_set_Some by lia. simpl.
    exists None, (items c). split; [done|]. split; [left; done|done].
Qed.

(* the key Add removes is the key of the resident entry in the slot it
   inspects, if there is one *)
Lemma Add_absent_items c k v c' :
  wf c → tidy c → 2 <= size c → items c !! k = None →
  Add c k v = Some (true, c') →
  items c' !! k = Some (length (mem c)) ∧
  ∀ k2 l2 e2, k2 ≠ k → items c !! k2 = Some l2 → mem c !! l2 = Some e2 →
    items c' !! k2 =
      if decide (index e2 = tail_index c) then None else Some l2.
Proof.
  intros Hwf Hty Hs2 Hk Ha.
  destruct (Add_absent_eq c k v Hwf Hk) as (d & its & Hd & Hits & Ha').
  rewrite Ha in Ha'. injection Ha' as ->. simpl.
  pose proof (wf_size c Hwf) as Hs. pose proof (wf_head c Hwf) as Hh.
  pose proof (next_head_range c Hs Hh) as Hnr.
  pose proof (tail_index_range c Hs Hh) as Htr.
  split; [apply lookup_insert_eq|].
  intros k2 l2 e2 Hne Hk2 He2. rewrite lookup_insert_ne by done.
  destruct (wf_index c k2 l2 e2 Hwf Hk2 He2) as (Hkey2 & Hi2 & Hr2).
  assert (Z.of_nat (Z.to_nat (tail_index c)) ≠ next_head c ∨ size c = 1)
    as Hside.
  { left. rewrite Z2Nat.id by lia. unfold tail_index. case_decide; lia. }
  destruct Hits as [[-> ->]|(p & e & -> & He & ->)].
  - rewrite decide_False; [done|].
    intros Heq. rewrite Heq in Hr2. congruence.
  - destruct (Hty _ p Hd Hside) as (kp & ep & Hkp & Hep & Hip).
    assert (ep = e) as -> by congruence.
    destruct (wf_index c kp p e Hwf Hkp He) as (Hkeyp & _ & _).
    case_decide as Hit.
    + rewrite Hit in Hr2. assert (p = l2) as -> by congruence.
      assert (e = e2) as -> by congruence.
      rewrite Hkey2. apply lookup_delete_eq.
    + rewrite lookup_delete_ne; [done|].
      intros Heq. rewrite Hkeyp in Heq. subst kp.
      assert (p = l2) as -> by congruence.
      assert (e = e2) as -> by congruence. lia.
Qed.

Lemma Add_absent_tidy c k v c' :
  wf c → tidy c → items c !! k = None →
  Add c k v = Some (true, c') → tidy c'.
Proof.
  intros Hwf Hty Hk Ha.
  destruct (Add_absent_eq c k v Hwf Hk) as (d & its & Hd & Hits & Ha').
  pose proof Ha as Ha2. rewrite Ha' in Ha2. injection Ha2 as <-.
  pose proof (wf_size c Hwf) as Hs. pose proof (wf_head c Hwf) as Hh.
  pose proof (wf_ring c Hwf) as Hlen.
  pose proof (next_head_range c Hs Hh) as Hnr.
  intros i l' Hi Hside. simpl in *.
  destruct (decide (Z.to_nat (next_head c) = i)) as [<-|Hn].
  { rewrite list_lookup_insert_eq in Hi by lia. injection Hi as <-.
    exists k. eexists. split; [apply lookup_insert_eq|].
    split; [apply list_lookup_middle; done|]. simpl. lia. }
  rewrite list_lookup_insert_ne in Hi by done.
  assert (2 <= size c) as Hs2.
  { apply lookup_lt_Some in Hi. lia. }
  assert (Z.of_nat i ≠ next_head c ∨ size c = 1) as Hold by (left; lia).
  destruct (Hty i l' Hi Hold) as (k2 & e2 & Hk2 & He2 & Hi2).
  assert (k2 ≠ k) as Hne by congruence.
  destruct (Add_absent_items c k v _ Hwf Hty Hs2 Hk Ha) as [_ Hother].
  specialize (Hother k2 l' e2 Hne Hk2 He2). simpl in Hother.
  exists k2, e2. split; [|split; [by apply lookup_app_l_Some|done]].
  rewrite Hother. rewrite decide_False; [done|].
  destruct Hside as [Hside|Hside]; [|lia].
  unfold next_head in Hside at 1. simpl in Hside.
  fold (next_head c) in Hside. fold (tail_index c) in Hside. lia.
Qed.

Lemma tidy_set_value c l e v :
  tidy c → mem c !! l = Some e →
  tidy {| size := size c; items := items c; head := head c; ring := ring c;
          mem := <[l := set_value e v]> (mem c) |}.
Proof.
  intros Hty He i l' Hi Hside. simpl in *.
  destruct (Hty i l' Hi Hside) as (k2 & e2 & Hk2 & He2 & Hi2).
  assert (l < length (mem c))%nat as Hlt by (by apply lookup_lt_Some in He).
  exists k2. destruct (decide (l' = l)) as [->|Hne].
  - exists (set_value e v). split; [done|].
    split; [by apply list_lookup_insert_eq|].
    simpl. congruence.
  - exists e2. split; [done|]. split; [|done].
    by rewrite list_lookup_insert_ne.
Qed.

Lemma tidy_empty (sz : Z) (m : list (lruElem K V)) :
  tidy {| size := sz; items := ∅; head := 0;
          ring := replicate (Z.to_nat sz) None; mem := m |}.
Proof.
  intros i l Hi _. simpl in Hi. apply lookup_replicate in Hi as [? _]. done.
Qed.

(* Add of a resident key, written out: promote, then ent.value = value *)
Lemma Add_present_eq c k v l :
  wf c → items c !! k = Some l →
  ∃ c1 e1, promote c l = Some c1 ∧ mem c1 !! l = Some e1 ∧
    Add c k v =
      Some (false, {| size := size c1; items := items c1; head := head c1;
                      ring := ring c1;
                      mem := <[l := set_value e1 v]> (mem c1) |}).
Proof.
  intros Hwf Hk. unfold Add. rewrite Hk.
  destruct (wf_lookup c k l Hwf Hk) as [e He].
  destruct (promote_wf c k l e Hwf Hk He)
    as (ni & c1 & Hp & Hwf1 & Hsz & Hit & Hhd & Hml & _).
  rewrite Hp. simpl. rewrite Hml. simpl. eauto.
Qed.

Lemma Add_tidy c k v b c' :
  wf c → tidy c → Add c k v = Some (b, c') → tidy c'.
Proof.
  intros Hwf Hty Ha. destruct (items c !! k) as [l|] eqn:Hk.
  - destruct (Add_present_eq c k v l Hwf Hk) as (c1 & e1 & Hp & He1 & Ha').
    rewrite Ha in Ha'. injection Ha' as -> ->.
    destruct (wf_lookup c k l Hwf Hk) as [e He].
    apply tidy_set_value; [|done].
    by apply (promote_tidy c k l e).
  - destruct (Add_absent_wf c k v Hwf Hk) as (c2 & Ha' & _).
    assert (b = true) as -> by congruence.
    by apply (Add_absent_tidy c k v).
Qed.

Lemma Get_tidy c k r c' :
  wf c → tidy c → Get c k = Some (r, c') → tidy c'.
Proof.
  intros Hwf Hty Hg. unfold Get in Hg.
  destruct (items c !! k) as [l|] eqn:Hk; [|by injection Hg as _ <-].
  destruct (wf_lookup c k l Hwf Hk) as [e He].
  destruct (promote c l) as [c1|] eqn:Hp; [|done]. simpl in Hg.
  destruct (mem c1 !! l); [|done]. simpl in Hg. injection Hg as _ <-.
  by apply (promote_tidy c k l e).
Qed.

(* Remove of a resident key, written out *)
Lemma Remove_present_eq c k l e :
  wf c → items c !! k = Some l → mem c !! l = Some e →
  Remove c k =
    Some (true, {| size := size c; items := delete k (items c);
                   head := head c;
                   ring := <[Z.to_nat (index e) := None]> (ring c);
                   mem := mem c |}).
Proof.
  intros Hwf Hk He. unfold Remove. rewrite Hk, He. simpl.
  destruct (wf_index c k l e Hwf Hk He) as (_ & Hcur & _).
  pose proof (wf_ring c Hwf) as Hlen.
  by rewrite ring_set_Some by lia.
Qed.

Lemma Remove_tidy c k b c' :
  wf c → tidy c → Remove c k = Some (b, c') → tidy c'.
Proof.
  intros Hwf Hty Hr. destruct (items c !! k) as [l|] eqn:Hk.
  - destruct (wf_lookup c k l Hwf Hk) as [e He].
    rewrite (Remove_present_eq c k l e Hwf Hk He) in Hr.
    injection Hr as _ <-.
    destruct (wf_index c k l e Hwf Hk He) as (_ & Hcur & Hrc).
    pose proof (wf_ring c Hwf) as Hlen.
    intros i l' Hi Hside. simpl in *.
    destruct (decide (Z.to_nat (index e) = i)) as [<-|Hn].
    { by rewrite list_lookup_insert_eq in Hi by lia. }
    rewrite list_lookup_insert_ne in Hi by done.
    destruct (Hty i l' Hi Hside) as (k2 & e2 & Hk2 & He2 & Hi2).
    exists k2, e2. split; [|done].
    rewrite lookup_delete_ne; [done|].
    intros <-. assert (l' = l) as -> by congruence.
    assert (e2 = e) as -> by congruence. lia.
  - unfold Remove in Hr. rewrite Hk in Hr. by injection Hr as _ <-.
Qed.

Lemma exec_tidy (o : op K V) c r c' :
  wf c → tidy c → exec o c = Some (r, c') → tidy c'.
Proof.
  intros Hwf Hty He. destruct o as [k v|k|k|k|k v|k| | |]; simpl in He.
  - destruct (Add c k v) as [[b c1]|] eqn:Ha; [|done].
    simpl in He. injection He as _ <-. by apply (Add_tidy c k v b).
  - destruct (Get c k) as [[r1 c1]|] eqn:Hg; [|done].
    simpl in He. injection He as _ <-. by apply (Get_tidy c k r1).
  - destruct (Peek_wf c k Hwf) as (r1 & Hp & _). rewrite Hp in He.
    simpl in He. by injection He as _ <-.
  - rewrite Contains_eq in He. simpl in He. by injection He as _ <-.
  - unfold ContainsOrAdd in He. rewrite Contains_eq in He. simpl in He.
    destruct (resident c k).
    + simpl in He. by injection He as _ <-.
    + destruct (Add c k v) as [[b c1]|] eqn:Ha; [|done].
      simpl in He. injection He as _ <-. by apply (Add_tidy c k v b).
  - destruct (Remove c k) as [[b c1]|] eqn:Hr; [|done].
    simpl in He. injection He as _ <-. by apply (Remove_tidy c k b).
  - by injection He as _ <-.
  - by injection He as _ <-.
  - unfold Purge, make_ring in He. case_decide; [|done].
    simpl in He. injection He as _ <-. apply tidy_empty.
Qed.

Lemma run_tidy (os : list (op K V)) c tr c' :
  wf c → tidy c → run os c = Some (tr, c') → wf c' ∧ tidy c'.
Proof.
  revert c tr. induction os as [|o os IH]; intros c tr Hwf Hty Hr.
  - simpl in Hr. by injection Hr as _ <-.
  - simpl in Hr.
    destruct (exec_wf o c Hwf) as (r & c1 & He & Hwf1 & _).
    rewrite He in Hr. simpl in Hr.
    destruct (run os c1) as [[tr1 c2]|] eqn:Hr1; [|done].
    simpl in Hr. injection Hr as _ <-.
    apply (IH c1 tr1); [done| |done]. by apply (exec_tidy o c r).
Qed.

Lemma built_tidy (sz : Z) (os : list (op K V)) tr c :
  built sz os = Some (tr, c) → wf c ∧ tidy c.
Proof.
  intros Hb. destruct (built_inv sz os tr c Hb) as (Hs & _ & _).
  unfold built in Hb.
  destruct (NewUnsynched_wf (K:=K) (V:=V) sz Hs) as (c0 & Hn & Hwf0 & _).
  pose proof Hn as Hn'. unfold NewUnsynched, make_ring in Hn'.
  rewrite decide_False in Hn' by lia. rewrite decide_True in Hn' by lia.
  simpl in Hn'. injection Hn' as Hc0.
  rewrite Hn in Hb. apply (run_tidy os c0 tr c); [done| |done].
  rewrite <- Hc0. apply tidy_empty.
Qed.

End Steps.

(** ** Further facts: lookups after a step *)

Section Lookups.
Context {K : Type} `{Countable K} {V : Type}.
Implicit Types (c : lruish K V) (k : K) (v : V) (l : loc).

Lemma len_items c c' : items c' = items c → len c' = len c.
Proof. intros Hit. unfold len. by rewrite Hit. Qed.

Lemma resident_items c c' k :
  items c' = items c → resident c' k = resident c k.
Proof. intros Hit. unfold resident. by rewrite Hit. Qed.

Lemma resident_true_inv c k :
  resident c k = true → ∃ l, items c !! k = Some l.
Proof.
  intros Hr. destruct (items c !! k) as [l|] eqn:Hk; [eauto|].
  by rewrite (resident_false c k Hk) in Hr.
Qed.

Lemma resident_false_inv c k : resident c k = false → items c !! k = None.
Proof.
  intros Hr. destruct (items c !! k) as [l|] eqn:Hk; [|done].
  by rewrite (resident_true c k l Hk) in Hr.
Qed.

Lemma distance_inv c k d :
  distance c k = Some d →
  ∃ l e, items c !! k = Some l ∧ mem c !! l = Some e ∧
         d = position c (index e).
Proof.
  unfold distance. intros Hd.
  destruct (items c !! k) as [l|] eqn:Hk; [|done]. simpl in Hd.
  destruct (mem c !! l) as [e|] eqn:He; [|done]. simpl in Hd.
  injection Hd as <-. by exists l, e.
Qed.

(* Get returns what Peek returns *)
Lemma Get_stored c k :
  wf c → ∃ c', Get c k = Some ((stored c k, resident c k), c').
Proof.
  intros Hwf. unfold Get. destruct (items c !! k) as [l|] eqn:Hk.
  - destruct (wf_lookup c k l Hwf Hk) as [e He].
    destruct (promote_wf c k l e Hwf Hk He)
      as (ni & c' & Hp & _ & _ & _ & _ & Hml & _).
    rewrite Hp. simpl. rewrite Hml. simpl.
    rewrite (stored_Some c k l e Hk He), (resident_true c k l Hk). eauto.
  - rewrite (stored_None c k Hk), (resident_false c k Hk). eauto.
Qed.

(* ent.value = value touches the value of one element only *)
Lemma set_value_frame c l e v k :
  wf c → items c !! k = Some l → mem c !! l = Some e →
  let c' := {| size := size c; items := items c; head := head c;
               ring := ring c; mem := <[l := set_value e v]> (mem c) |} in
  stored c' k = Some v ∧
  (∀ k2, k2 ≠ k → stored c' k2 = stored c k2) ∧
  (∀ k2, distance c' k2 = distance c k2).
Proof.
  intros Hwf Hk He c'.
  assert (l < length (mem c))%nat as Hlt by (by apply lookup_lt_Some in He).
  destruct (wf_index c k l e Hwf Hk He) as (Hkey & _ & _).
  split; [|split].
  - unfold stored. simpl. rewrite Hk. simpl.
    by rewrite list_lookup_insert_eq.
  - intros k2 Hne. unfold stored. simpl.
    destruct (items c !! k2) as [l2|] eqn:Hk2; [|done]. simpl.
    assert (l2 ≠ l) as Hl.
    { intros ->. destruct (wf_index c k2 l e Hwf Hk2 He) as (Hkey2 & _).
      congruence. }
    by rewrite list_lookup_insert_ne.
  - intros k2. unfold distance. simpl.
    destruct (items c !! k2) as [l2|] eqn:Hk2; [|done]. simpl.
    destruct (decide (l2 = l)) as [->|Hl].
    + rewrite list_lookup_insert_eq by done. rewrite He. done.
    + by rewrite list_lookup_insert_ne.
Qed.

(* after Add the key holds the value, whether it was resident or not *)
Lemma Add_stored c k v b c' :
  wf c → Add c k v = Some (b, c') → stored c' k = Some v.
Proof.
  intros Hwf Ha. destruct (items c !! k) as [l|] eqn:Hk.
  - destruct (Add_present_eq c k v l Hwf Hk) as (c1 & e1 & Hp & He1 & Ha').
    rewrite Ha in Ha'. injection Ha' as -> ->.
    destruct (wf_lookup c k l Hwf Hk) as [e He].
    destruct (promote_wf c k l e Hwf Hk He)
      as (ni & c2 & Hp2 & Hwf1 & _ & Hit & _).
    assert (c2 = c1) as -> by congruence.
    apply (set_value_frame c1 l e1 v k); [done| |done]. by rewrite Hit.
  - destruct (Add_absent_eq c k v Hwf Hk) as (d & its & _ & _ & Ha').
    rewrite Ha in Ha'. injection Ha' as -> ->.
    unfold stored. simpl. rewrite lookup_insert_eq. simpl.
    by rewrite list_lookup_middle.
Qed.

End Lookups.

(** ** Further properties of the engine *)

Section FurtherProperties.
Context {K : Type} `{Countable K} {V : Type}.
Implicit Types (c : lruish K V) (k : K) (v : V) (l : loc).

Lemma promote_summary c k l e c1 d :
  wf c → tidy c → items c !! k = Some l → mem c !! l = Some e →
  promote c l = Some c1 → distance c k = Some d →
  wf c1 ∧ items c1 = items c ∧ head c1 = head c ∧ size c1 = size c ∧
  (∀ k2, stored c1 k2 = stored c k2) ∧
  distance c1 k = Some (d / 2) ∧
  (∀ k2, k2 ≠ k →
     distance c1 k2 =
       if decide (distance c k2 = Some (d / 2)) then Some d
       else distance c k2).
Proof.
  intros Hwf Hty Hk He Hp Hd.
  destruct (promote_wf c k l e Hwf Hk He)
    as (ni & c2 & Hp2 & Hwf1 & Hsz & Hit & Hhd & Hml & Hpos).
  assert (c2 = c1) as -> by congruence.
  destruct (promote_frame c k l e c1 d Hwf Hty Hk He Hp Hd) as [Hst Hdi].
  split_and!; try done.
  rewrite (distance_Some c k l e Hk He) in Hd. injection Hd as <-.
  assert (items c1 !! k = Some l) as Hk1 by (by rewrite Hit).
  rewrite (distance_Some c1 k l _ Hk1 Hml). simpl. by rewrite Hpos.
Qed.

(** X1: a value that was added is the value looked up: after Add(k, v),
    whether k was resident or not, Peek(k) and Get(k) both return
    (v, true). *)
Theorem Add_then_Peek_and_Get sz (os : list (op K V)) tr c k v :
  built sz os = Some (tr, c) →
  ∃ b c', Add c k v = Some (b, c') ∧
    Peek c' k = Some ((Some v, true), c') ∧
    ∃ c'', Get c' k = Some ((Some v, true), c'').
Proof.
  intros Hb. destruct (built_inv sz os tr c Hb) as (_ & Hwf & _).
  destruct (Add_wf c k v Hwf) as (c' & Ha & Hwf' & _).
  pose proof (Add_stored c k v _ c' Hwf Ha) as Hst.
  assert (resident c' k = true) as Hr.
  { unfold stored in Hst. destruct (items c' !! k) as [l|] eqn:Hk; [|done].
    by apply (resident_true c' k l). }
  exists (negb (resident c k)), c'. split; [done|]. split.
  - by rewrite (Peek_stored c' k Hwf'), Hst, Hr.
  - destruct (Get_stored c' k Hwf') as [c'' Hg].
    exists c''. by rewrite Hg, Hst, Hr.
Qed.

(** X2: Add of a resident key updates in place: it returns false, keeps
    Len, the head and the set of resident keys, replaces the value of k
    only, and promotes k like a Get: its distance d becomes d / 2 and the
    entry that was at distance d / 2, if any, takes distance d. *)
Theorem Add_resident_updates_in_place sz (os : list (op K V)) tr c k v d :
  built sz os = Some (tr, c) → distance c k = Some d →
  ∃ c', Add c k v = Some (false, c') ∧
    len c' = len c ∧ head c' = head c ∧
    (∀ k2, resident c' k2 = resident c k2) ∧
    stored c' k = Some v ∧
    (∀ k2, k2 ≠ k → stored c' k2 = stored c k2) ∧
    distance c' k = Some (d / 2) ∧
    (∀ k2, k2 ≠ k →
       distance c' k2 =
         if decide (distance c k2 = Some (d / 2)) then Some d
         else distance c k2).
Proof.
  intros Hb Hd. destruct (built_tidy sz os tr c Hb) as [Hwf Hty].
  destruct (distance_inv c k d Hd) as (l & e & Hk & He & _).
  destruct (Add_present_eq c k v l Hwf Hk) as (c1 & e1 & Hp & He1 & Ha).
  destruct (promote_summary c k l e c1 d Hwf Hty Hk He Hp Hd)
    as (Hwf1 & Hit & Hhd & Hsz & Hst & Hdk & Hdo).
  assert (items c1 !! k = Some l) as Hk1 by (by rewrite Hit).
  destruct (set_value_frame c1 l e1 v k Hwf1 Hk1 He1) as (Hv & Hvo & Hdv).
  eexists. split; [exact Ha|].
  split_and!.
  - apply len_items. simpl. done.
  - done.
  - intros k2. apply resident_items. simpl. done.
  - exact Hv.
  - intros k2 Hne. rewrite (Hvo k2 Hne). apply Hst.
  - rewrite Hdv. exact Hdk.
  - intros k2 Hne. rewrite Hdv. by apply Hdo.
Qed.

(** X3: Get only reorders: on a resident key it returns what Peek
    returns, keeps Len, the head, the resident keys and every stored
    value, halves the distance of k and moves the entry that was at the
    target distance, if any, to the distance k had. *)
Theorem Get_only_reorders sz (os : list (op K V)) tr c k d :
  built sz os = Some (tr, c) → distance c k = Some d →
  ∃ c', Get c k = Some ((stored c k, true), c') ∧
    Peek c k = Some ((stored c k, true), c) ∧
    len c' = len c ∧ head c' = head c ∧
    (∀ k2, resident c' k2 = resident c k2) ∧
    (∀ k2, stored c' k2 = stored c k2) ∧
    distance c' k = Some (d / 2) ∧
    (∀ k2, k2 ≠ k →
       distance c' k2 =
         if decide (distance c k2 = Some (d / 2)) then Some d
         else distance c k2).
Proof.
  intros Hb Hd. destruct (built_tidy sz os tr c Hb) as [Hwf Hty].
  destruct (distance_inv c k d Hd) as (l & e & Hk & He & _).
  destruct (Get_stored c k Hwf) as [c' Hg].
  rewrite (resident_true c k l Hk) in Hg.
  assert (promote c l = Some c') as Hp.
  { unfold Get in Hg. rewrite Hk in Hg.
    destruct (promote c l) as [c1|]; [|done]. simpl in Hg.
    destruct (mem c1 !! l); [|done]. simpl in Hg. congruence. }
  destruct (promote_summary c k l e c' d Hwf Hty Hk He Hp Hd)
    as (Hwf1 & Hit & Hhd & Hsz & Hst & Hdk & Hdo).
  exists c'. split; [done|]. split_and!; try done.
  - by rewrite (Peek_stored c k Hwf), (resident_true c k l Hk).
  - by apply len_items.
  - intros k2. by apply resident_items.
Qed.

(* Add of a new key into a cache of at least two slots *)
Lemma Add_absent_policy c k v :
  wf c → tidy c → 2 <= size c → items c !! k = None →
  ∃ c', Add c k v = Some (true, c') ∧ wf c' ∧ tidy c' ∧
    size c' = size c ∧ head c' = next_head c ∧
    distance c' k = Some 0 ∧ stored c' k = Some v ∧
    ∀ k2, k2 ≠ k →
      distance c' k2 =
        match distance c k2 with
        | Some d => if decide (d = size c - 2) then None else Some (d + 1)
        | None => None
        end ∧
      (is_Some (distance c' k2) → stored c' k2 = stored c k2).
Proof.
  intros Hwf Hty Hs2 Hk.
  destruct (Add_absent_wf c k v Hwf Hk)
    as (c' & Ha & Hwf' & Hsz & Hhd & Hkn & Hor).
  pose proof (wf_size c Hwf) as Hs. pose proof (wf_head c Hwf) as Hh.
  destruct (Add_absent_items c k v c' Hwf Hty Hs2 Hk Ha) as [_ Hit].
  destruct (Add_absent_eq c k v Hwf Hk) as (d0 & its & _ & _ & Ha').
  assert (mem c' = mem c ++ [{| value := v; key := k; index := next_head c |}])
    as Hmem.
  { rewrite Ha in Ha'. by injection Ha' as ->. }
  exists c'. split; [done|]. split; [done|].
  split; [by apply (Add_absent_tidy c k v)|].
  split; [done|]. split; [done|]. split; [|split].
  - assert (mem c' !! length (mem c)
            = Some {| value := v; key := k; index := next_head c |}) as Hn
      by (rewrite Hmem; by apply list_lookup_middle).
    rewrite (distance_Some c' k _ _ Hkn Hn). simpl.
    unfold position. rewrite Hhd. rewrite decide_False by lia. f_equal. lia.
  - by apply (Add_stored c k v true).
  - intros k2 Hne. destruct (items c !! k2) as [l2|] eqn:Hk2.
    + destruct (wf_lookup c k2 l2 Hwf Hk2) as [e2 He2].
      destruct (wf_index c k2 l2 e2 Hwf Hk2 He2) as (_ & Hi2 & _).
      specialize (Hit k2 l2 e2 Hne Hk2 He2).
      rewrite (distance_Some c k2 l2 e2 Hk2 He2).
      destruct (decide (index e2 = tail_index c)) as [Ht|Ht].
      * rewrite decide_True by (by apply position_tail_index).
        rewrite (distance_None c' k2 Hit). split; [done|by intros [? ?]].
      * rewrite decide_False
          by (intros Heq; apply Ht; by apply position_tail_index in Heq).
        assert (mem c' !! l2 = Some e2) as He2'
          by (rewrite Hmem; by apply lookup_app_l_Some).
        rewrite (distance_Some c' k2 l2 e2 Hit He2').
        split.
        -- f_equal. apply position_after_insert; try done.
           by apply (wf_tail c Hwf Hs2 k2 l2).
        -- intros _. by rewrite (stored_Some c' k2 l2 e2 Hit He2'),
                                (stored_Some c k2 l2 e2 Hk2 He2).
    + rewrite (distance_None c k2 Hk2).
      assert (items c' !! k2 = None) as Hk2'
        by (destruct (Hor k2 Hne) as [Hn|Hn]; congruence).
      rewrite (distance_None c' k2 Hk2'). split; [done|by intros [? ?]].
Qed.

(** X4: the eviction policy of Add for a key that is not resident, in a
    cache of at least two slots: Add returns true and moves the head one
    slot back; the new key is at distance 0 with its value; the key that
    was at distance capacity - 2, if any, is evicted, and no other; every
    other resident key keeps its value and is one step further from the
    head. *)
Theorem Add_new_key_ages_and_evicts sz (os : list (op K V)) tr c k v :
  built sz os = Some (tr, c) → 2 <= sz → resident c k = false →
  ∃ c', Add c k v = Some (true, c') ∧ head c' = next_head c ∧
    distance c' k = Some 0 ∧ stored c' k = Some v ∧
    ∀ k2, k2 ≠ k →
      distance c' k2 =
        match distance c k2 with
        | Some d => if decide (d = sz - 2) then None else Some (d + 1)
        | None => None
        end ∧
      (is_Some (distance c' k2) → stored c' k2 = stored c k2).
Proof.
  intros Hb Hs2 Hr.
  destruct (built_inv sz os tr c Hb) as (_ & _ & Hsz).
  destruct (built_tidy sz os tr c Hb) as [Hwf Hty].
  apply resident_false_inv in Hr.
  destruct (Add_absent_policy c k v Hwf Hty ltac:(lia) Hr)
    as (c' & Ha & _ & _ & _ & Hhd & Hdk & Hst & Ho).
  exists c'. rewrite <- Hsz. done.
Qed.

(** X5: Add of a key that is not resident grows Len by one or leaves it
    as it is, never more and never less; with at least two slots Len stays
    the same exactly when some key was at distance capacity - 2 (the one
    that is evicted), so a cache holding capacity - 1 keys keeps holding
    capacity - 1. *)
Theorem Add_new_key_Len sz (os : list (op K V)) tr c k v :
  built sz os = Some (tr, c) → resident c k = false →
  ∃ c', Add c k v = Some (true, c') ∧
    len c <= len c' <= len c + 1 ∧
    (2 <= sz →
       (len c' = len c ↔ ∃ k2, distance c k2 = Some (sz - 2)) ∧
       (len c = sz - 1 → len c' = sz - 1)).
Proof.
  intros Hb Hr.
  destruct (built_inv sz os tr c Hb) as (_ & _ & Hsz).
  destruct (built_tidy sz os tr c Hb) as [Hwf Hty].
  apply resident_false_inv in Hr.
  pose proof (wf_size c Hwf) as Hs. pose proof (wf_head c Hwf) as Hh.
  pose proof (tail_index_range c Hs Hh) as Htr.
  pose proof (next_head_range c Hs Hh) as Hnr.
  destruct (Add_absent_wf c k v Hwf Hr) as (c' & Ha & Hwf' & Hsz' & _).
  destruct (Add_absent_eq c k v Hwf Hr) as (d & its & Hd & Hits & Ha').
  assert (items c' = <[k := length (mem c)]> its) as Hit.
  { rewrite Ha in Ha'. by injection Ha' as ->. }
  assert (Z.of_nat (Z.to_nat (tail_index c)) ≠ next_head c ∨ size c = 1)
    as Hside.
  { destruct (decide (size c = 1)); [by right|left].
    rewrite Z2Nat.id by lia. unfold tail_index. case_decide; lia. }
  assert (len c' = len c + 1 ∧ d = None ∨
          len c' = len c ∧ ∃ k2, distance c k2 = Some (position c (tail_index c)))
    as Hcases.
  { unfold len. rewrite Hit.
    destruct Hits as [[-> ->]|(p & e & -> & He & ->)].
    - left. rewrite map_size_insert_None by done. split; [lia|done].
    - right. destruct (Hty _ p Hd Hside) as (kp & ep & Hkp & Hep & Hip).
      assert (ep = e) as -> by congruence.
      destruct (wf_index c kp p e Hwf Hkp He) as (Hkeyp & _ & _).
      rewrite Hkeyp. split.
      + rewrite map_size_insert_None
          by (rewrite lookup_delete_ne by congruence; done).
        rewrite <- (insert_id (items c) kp p Hkp) at 2.
        rewrite <- insert_delete_eq.
        rewrite (map_size_insert_None kp) by apply lookup_delete_eq. done.
      + exists kp. rewrite (distance_Some c kp p e Hkp He).
        rewrite Hip. by rewrite Z2Nat.id by lia. }
  exists c'. split; [done|]. split; [destruct Hcases as [[? _]|[? _]]; lia|].
  intros Hs2. rewrite <- Hsz in *.
  assert (position c (tail_index c) = size c - 2) as Hpt
    by (by apply position_tail_index).
  assert (len c' = len c ↔ ∃ k2, distance c k2 = Some (size c - 2)) as Hiff.
  { destruct Hcases as [[Hl ->]|[Hl Hex]].
    - split; [lia|]. intros [k2 Hk2].
      destruct (distance_inv c k2 _ Hk2) as (l2 & e2 & Hi2 & He2 & Hp2).
      destruct (wf_index c k2 l2 e2 Hwf Hi2 He2) as (_ & Hr2 & Hring).
      symmetry in Hp2. apply position_tail_index in Hp2; [|done..].
      rewrite Hp2 in Hring. congruence.
    - rewrite Hpt in Hex. tauto. }
  split; [done|]. intros Hfull.
  pose proof (wf_len_lt c' Hwf' ltac:(lia)).
  destruct Hcases as [[? _]|[? _]]; lia.
Qed.

(** X6: a cache of one slot holds the last key: after Add of a key that
    is not resident, that key is the only resident one and Len is 1. *)
Theorem capacity_one_holds_last_key (os : list (op K V)) tr c k v :
  built 1 os = Some (tr, c) → resident c k = false →
  ∃ c', Add c k v = Some (true, c') ∧ len c' = 1 ∧ stored c' k = Some v ∧
    ∀ k2, k2 ≠ k → resident c' k2 = false.
Proof.
  intros Hb Hr.
  destruct (built_inv 1 os tr c Hb) as (_ & Hwf & Hsz).
  apply resident_false_inv in Hr.
  pose proof (wf_size c Hwf) as Hs. pose proof (wf_head c Hwf) as Hh.
  pose proof (tail_index_range c Hs Hh) as Htr.
  destruct (Add_absent_eq c k v Hwf Hr) as (d & its & Hd & Hits & Ha).
  assert (its = ∅) as ->.
  { apply map_eq. intros k2. rewrite lookup_empty.
    destruct (items c !! k2) as [l2|] eqn:Hk2.
    - destruct (wf_lookup c k2 l2 Hwf Hk2) as [e2 He2].
      destruct (wf_index c k2 l2 e2 Hwf Hk2 He2) as (Hkey2 & Hi2 & Hr2).
      assert (index e2 = tail_index c) as Heq by lia.
      rewrite Heq in Hr2.
      destruct Hits as [[-> ->]|(p & e & -> & He & ->)]; [congruence|].
      assert (p = l2) as -> by congruence.
      assert (e = e2) as -> by congruence.
      rewrite Hkey2. apply lookup_delete_eq.
    - destruct Hits as [[-> ->]|(p & e & -> & He & ->)]; [done|].
      apply lookup_delete_None. by right. }
  eexists. split; [exact Ha|]. split; [|split].
  - unfold len. simpl. rewrite insert_empty. by rewrite map_size_singleton.
  - by apply (Add_stored c k v true _ Hwf Ha).
  - intros k2 Hne. apply resident_false. simpl.
    rewrite lookup_insert_ne by done. apply lookup_empty.
Qed.

(** X7: Remove of a resident key returns true; afterwards the key is not
    resident and Len is one less; its slot is left empty and no other
    slot, nor the head, changes; every other key keeps its value and its
    distance from the head. *)
Theorem Remove_takes_one_key sz (os : list (op K V)) tr c k d :
  built sz os = Some (tr, c) → distance c k = Some d →
  ∃ c', Remove c k = Some (true, c') ∧
    resident c' k = false ∧ len c' = len c - 1 ∧ head c' = head c ∧
    ring_get (ring c') ((head c + d) `mod` sz) = Some None ∧
    (∀ i, i ≠ (head c + d) `mod` sz →
          ring_get (ring c') i = ring_get (ring c) i) ∧
    ∀ k2, k2 ≠ k →
      resident c' k2 = resident c k2 ∧ stored c' k2 = stored c k2 ∧
      distance c' k2 = distance c k2.
Proof.
  intros Hb Hd. destruct (built_inv sz os tr c Hb) as (_ & Hwf & Hsz).
  destruct (distance_inv c k d Hd) as (l & e & Hk & He & ->).
  destruct (wf_index c k l e Hwf Hk He) as (_ & Hcur & _).
  pose proof (wf_size c Hwf) as Hs. pose proof (wf_head c Hwf) as Hh.
  pose proof (wf_ring c Hwf) as Hlen.
  assert ((head c + position c (index e)) `mod` sz = index e) as Hslot.
  { rewrite <- Hsz. rewrite position_mod by done.
    rewrite Zplus_mod_idemp_r.
    replace (head c + (index e - head c)) with (index e) by lia.
    apply Z.mod_small. lia. }
  rewrite Hslot.
  eexists. split; [exact (Remove_present_eq c k l e Hwf Hk He)|].
  split_and!; simpl.
  - apply resident_false. simpl. apply lookup_delete_eq.
  - unfold len. simpl.
    rewrite <- (insert_id (items c) k l Hk) at 2.
    rewrite <- insert_delete_eq.
    rewrite (map_size_insert_None k) by apply lookup_delete_eq. lia.
  - done.
  - apply ring_get_Some. split; [lia|]. apply list_lookup_insert_eq. lia.
  - intros i Hi. unfold ring_get. case_decide; [|done].
    by rewrite list_lookup_insert_ne by lia.
  - intros k2 Hne. split_and!.
    + unfold resident. simpl. by rewrite lookup_delete_ne.
    + unfold stored. simpl. by rewrite lookup_delete_ne.
    + unfold distance. simpl. by rewrite lookup_delete_ne.
Qed.

Lemma run_app (os1 os2 : list (op K V)) c :
  run (os1 ++ os2) c =
    '(tr1, c1) ← run os1 c; '(tr2, c2) ← run os2 c1; Some (tr1 ++ tr2, c2).
Proof.
  revert c. induction os1 as [|o os1 IH]; intros c; simpl.
  - destruct (run os2 c) as [[tr2 c2]|]; done.
  - destruct (exec o c) as [[r c1]|]; [|done]. simpl. rewrite IH.
    destruct (run os1 c1) as [[tr1 c1']|]; [|done]. simpl.
    destruct (run os2 c1') as [[tr2 c2]|]; done.
Qed.

(* insertions of distinct keys into a cache without resident keys: the
   i-th key of n is at distance n - 1 - i, or gone *)
Lemma fill_vacant c (kvs : list (K * V)) :
  wf c → tidy c → 2 <= size c → vacant c → NoDup kvs.*1 →
  ∃ tr c', run (adds kvs) c = Some (tr, c') ∧ wf c' ∧ tidy c' ∧
    size c' = size c ∧
    tr.*2 = replicate (length kvs) (RetBool true) ∧
    (∀ k, k ∉ kvs.*1 → distance c' k = None) ∧
    (∀ (i : nat) k v, kvs !! i = Some (k, v) →
       distance c' k =
         (if decide (Z.of_nat (length kvs - 1 - i) < size c - 1)
          then Some (Z.of_nat (length kvs - 1 - i)) else None) ∧
       (is_Some (distance c' k) → stored c' k = Some v)).
Proof.
  intros Hwf Hty Hs2 Hvac.
  induction kvs as [|[k v] kvs IH] using rev_ind; intros Hnd.
  - exists [], c. simpl. split_and!; try done.
    intros k _. apply distance_None, Hvac.
  - rewrite fmap_app in Hnd. apply NoDup_app in Hnd as (Hnd & Hnin & _).
    destruct (IH Hnd) as (tr1 & c1 & Hr1 & Hwf1 & Hty1 & Hsz1 & Htr1 & Hout & Hin).
    assert (k ∉ kvs.*1) as Hk.
    { intros Hk. apply (Hnin k Hk). simpl. apply list_elem_of_here. }
    assert (items c1 !! k = None) as Hk1.
    { apply resident_false_inv.
      destruct (resident c1 k) eqn:Hr; [|done].
      apply (distance_is_Some c1 k Hwf1) in Hr as [d Hd].
      rewrite (Hout k Hk) in Hd. done. }
    destruct (Add_absent_policy c1 k v Hwf1 Hty1 ltac:(lia) Hk1)
      as (c2 & Ha & Hwf2 & Hty2 & Hsz2 & _ & Hdk & Hst & Ho).
    exists (tr1 ++ [(OpAdd k v, RetBool true)]), c2.
    split_and!; try done.
    + unfold adds. rewrite fmap_app. fold (adds kvs). rewrite run_app, Hr1.
      simpl. rewrite Ha. done.
    + congruence.
    + rewrite fmap_app, Htr1, length_app. simpl.
      rewrite Nat.add_1_r. by rewrite replicate_S_end.
    + intros k' Hk'. rewrite fmap_app in Hk'.
      apply not_elem_of_app in Hk' as [Hk'1 Hk'2].
      assert (k' ≠ k) as Hne by (intros ->; apply Hk'2, list_elem_of_here).
      destruct (Ho k' Hne) as [-> _]. by rewrite (Hout k' Hk'1).
    + intros i k' v' Hi. rewrite length_app. simpl.
      apply lookup_app_Some in Hi as [Hi|[Hge Hi]].
      * pose proof (lookup_lt_Some _ _ _ Hi) as Hlt.
        assert (k' ≠ k) as Hne.
        { intros ->. apply Hk. apply list_elem_of_fmap.
          exists (k, v'). split; [done|]. by apply list_elem_of_lookup_2 in Hi. }
        destruct (Hin i k' v' Hi) as [Hd1 Hs1].
        destruct (Ho k' Hne) as [Hd2 Hs2'].
        rewrite Hd1 in Hd2. rewrite Hsz1 in Hd2.
        assert (distance c2 k' =
                if decide (Z.of_nat (length kvs + 1 - 1 - i) < size c - 1)
                then Some (Z.of_nat (length kvs + 1 - 1 - i)) else None)
          as Hd2'.
        { rewrite Hd2. repeat case_decide; try lia; try done. f_equal. lia. }
        split; [done|]. intros Hsome.
        rewrite (Hs2' Hsome). apply Hs1.
        rewrite Hd1. rewrite Hd2' in Hsome.
        repeat case_decide; try lia; eauto; by destruct Hsome.
      * destruct (i - length kvs)%nat as [|j] eqn:Hj; [|done].
        simpl in Hi. injection Hi as <- <-.
        rewrite Hdk, Hst. rewrite decide_True by lia.
        split; [f_equal; lia|done].
Qed.

Lemma last_n_lookup {A} (n : nat) (xs : list A) (x : A) :
  x ∈ last_n n xs ↔
  ∃ i : nat, xs !! i = Some x ∧ (length xs - 1 - i < n)%nat.
Proof.
  unfold last_n. split.
  - intros [j Hj]%list_elem_of_lookup_1. rewrite lookup_drop in Hj.
    exists (length xs - n + j)%nat. split; [done|].
    apply lookup_lt_Some in Hj. lia.
  - intros (i & Hi & Hlt). pose proof (lookup_lt_Some _ _ _ Hi).
    apply (list_elem_of_lookup_2 _ (i - (length xs - n))).
    rewrite lookup_drop. rewrite <- Hi. f_equal. lia.
Qed.

Lemma fill_summary c (kvs : list (K * V)) :
  wf c → tidy c → 2 <= size c → vacant c → NoDup kvs.*1 →
  ∃ tr c', run (adds kvs) c = Some (tr, c') ∧
    tr.*2 = replicate (length kvs) (RetBool true) ∧
    len c' = Z.min (Z.of_nat (length kvs)) (size c - 1) ∧
    (∀ k, resident c' k = true ↔
          k ∈ (last_n (Z.to_nat (size c - 1)) kvs).*1) ∧
    (∀ k v, (k, v) ∈ last_n (Z.to_nat (size c - 1)) kvs →
            stored c' k = Some v).
Proof.
  intros Hwf Hty Hs2 Hvac Hnd.
  destruct (fill_vacant c kvs Hwf Hty Hs2 Hvac Hnd)
    as (tr & c' & Hr & Hwf' & Hty' & Hsz & Htr & Hout & Hin).
  exists tr, c'. split; [done|]. split; [done|].
  assert (∀ k, resident c' k = true ↔
               k ∈ (last_n (Z.to_nat (size c - 1)) kvs).*1) as Hres.
  { intros k. rewrite <- (distance_is_Some c' k Hwf'). split.
    - intros [d Hd].
      destruct (decide (k ∈ kvs.*1)) as [Hk|Hk];
        [|by rewrite (Hout k Hk) in Hd].
      apply list_elem_of_fmap in Hk as ([k' v] & -> & Hkv).
      apply list_elem_of_lookup_1 in Hkv as [i Hi]. simpl in *.
      destruct (Hin i k' v Hi) as [Hd' _]. rewrite Hd' in Hd.
      case_decide; [|done].
      apply list_elem_of_fmap. exists (k', v). split; [done|].
      apply last_n_lookup. exists i. split; [done|]. lia.
    - intros ([k' v] & -> & Hkv)%list_elem_of_fmap.
      apply last_n_lookup in Hkv as (i & Hi & Hlt). simpl.
      destruct (Hin i k' v Hi) as [Hd' _]. rewrite Hd'.
      rewrite decide_True by lia. eauto. }
  split; [|split; [done|]].
  - unfold len. rewrite <- (size_dom (D:=gset K)).
    assert (dom (items c')
            = list_to_set (last_n (Z.to_nat (size c - 1)) kvs).*1) as ->.
    { apply set_eq. intros k. rewrite elem_of_dom, elem_of_list_to_set.
      rewrite <- Hres. split.
      - intros [l Hl]. by apply (resident_true c' k l).
      - intros [l Hl]%resident_true_inv. eauto. }
    rewrite size_list_to_set.
    + rewrite length_fmap. unfold last_n. rewrite length_drop. lia.
    + unfold last_n. rewrite fmap_drop.
      apply (sublist_NoDup _ kvs.*1); [done|apply sublist_drop].
  - intros k v Hkv. apply last_n_lookup in Hkv as (i & Hi & Hlt).
    destruct (Hin i k v Hi) as [Hd' Hs']. apply Hs'. rewrite Hd'.
    rewrite decide_True by lia. eauto.
Qed.

(** X8: under insertions only, the cache is a queue of capacity - 1
    entries: after Add of n distinct keys into a new cache of at least two
    slots, every Add has returned true, Len is min(n, capacity - 1), the
    resident keys are exactly the last capacity - 1 keys inserted, and
    each holds its value. *)
Theorem insertions_keep_the_last_keys sz (kvs : list (K * V)) :
  2 <= sz → NoDup kvs.*1 →
  ∃ tr c, built sz (adds kvs) = Some (tr, c) ∧
    tr.*2 = replicate (length kvs) (RetBool true) ∧
    len c = Z.min (Z.of_nat (length kvs)) (sz - 1) ∧
    (∀ k, resident c k = true ↔ k ∈ (last_n (Z.to_nat (sz - 1)) kvs).*1) ∧
    (∀ k v, (k, v) ∈ last_n (Z.to_nat (sz - 1)) kvs → stored c k = Some v).
Proof.
  intros Hs2 Hnd.
  destruct (NewUnsynched_wf (K:=K) (V:=V) sz ltac:(lia))
    as (c0 & Hn & Hwf0 & Hsz0 & Hit0 & _).
  assert (built sz [] = Some ([], c0)) as Hb0
    by (unfold built; by rewrite Hn).
  destruct (built_tidy sz [] [] c0 Hb0) as [_ Hty0].
  assert (vacant c0) as Hvac by (intros k; by rewrite Hit0).
  destruct (fill_summary c0 kvs Hwf0 Hty0 ltac:(lia) Hvac Hnd)
    as (tr & c & Hr & Hrest).
  exists tr, c. rewrite Hsz0 in Hrest. split; [|done].
  unfold built. by rewrite Hn.
Qed.

(** X9: Purge empties the cache whatever was in it: Len is 0, no key is
    resident, the head is back at 0; insertions of distinct keys after it
    fill the cache as they fill a new one. *)
Theorem Purge_starts_afresh sz (os : list (op K V)) tr0 c (kvs : list (K * V)) :
  built sz os = Some (tr0, c) →
  ∃ c0, Purge c = Some (tt, c0) ∧
    len c0 = 0 ∧ head c0 = 0 ∧ (∀ k, resident c0 k = false) ∧
    (2 <= sz → NoDup kvs.*1 →
     ∃ tr c', run (adds kvs) c0 = Some (tr, c') ∧
       tr.*2 = replicate (length kvs) (RetBool true) ∧
       len c' = Z.min (Z.of_nat (length kvs)) (sz - 1) ∧
       (∀ k, resident c' k = true ↔
             k ∈ (last_n (Z.to_nat (sz - 1)) kvs).*1) ∧
       (∀ k v, (k, v) ∈ last_n (Z.to_nat (sz - 1)) kvs →
               stored c' k = Some v)).
Proof.
  intros Hb. destruct (built_inv sz os tr0 c Hb) as (Hs & Hwf & Hsz).
  destruct (Purge_wf c Hwf) as (c0 & Hp & Hwf0 & Hsz0 & Hit0).
  assert (tidy c0) as Hty0.
  { unfold Purge, make_ring in Hp. rewrite decide_True in Hp by lia.
    simpl in Hp. injection Hp as <-. apply tidy_empty. }
  assert (head c0 = 0) as Hhd.
  { unfold Purge, make_ring in Hp. rewrite decide_True in Hp by lia.
    simpl in Hp. by injection Hp as <-. }
  exists c0. split; [done|]. split_and!.
  - unfold len. rewrite Hit0. by rewrite map_size_empty.
  - done.
  - intros k. apply resident_false. by rewrite Hit0.
  - intros Hs2 Hnd.
    assert (vacant c0) as Hvac by (intros k; by rewrite Hit0).
    destruct (fill_summary c0 kvs Hwf0 Hty0 ltac:(lia) Hvac Hnd)
      as (tr & c' & Hr & Hrest).
    exists tr, c'. rewrite Hsz0, Hsz in Hrest. done.
Qed.

(** X10: ContainsOrAdd never touches a resident key: it returns
    (true, false) and the very cache it was given, value and recency
    included (where Add would overwrite and promote); for a key that is
    not resident it is Add, returning (false, true); either way the key is
    resident afterwards. *)
Theorem ContainsOrAdd_keeps_resident_entry sz (os : list (op K V)) tr c k v :
  built sz os = Some (tr, c) →
  ∃ r c', ContainsOrAdd c k v = Some (r, c') ∧ resident c' k = true ∧
    (resident c k = true → r = (true, false) ∧ c' = c) ∧
    (resident c k = false →
       r = (false, true) ∧ Add c k v = Some (true, c') ∧
       stored c' k = Some v).
Proof.
  intros Hb. destruct (built_inv sz os tr c Hb) as (_ & Hwf & _).
  unfold ContainsOrAdd. rewrite Contains_eq. simpl.
  destruct (resident c k) eqn:Hr.
  - eexists _, c. split; [done|]. split; [done|]. split; [done|]. done.
  - destruct (Add_wf c k v Hwf) as (c' & Ha & Hwf' & _).
    rewrite Hr in Ha. simpl in Ha. rewrite Ha. simpl.
    pose proof (Add_stored c k v true c' Hwf Ha) as Hst.
    eexists _, c'. split; [done|]. split; [|split; [done|]].
    + unfold stored in Hst.
      destruct (items c' !! k) as [l|] eqn:Hk; [|done].
      by apply (resident_true c' k l).
    + intros _. done.
Qed.

(** X11: Keys lists each resident key once and nothing else, so it is as
    long as Len says, and it leaves the cache as it was. *)
Theorem Keys_lists_the_resident_keys (c : lruish K V) :
  ∃ ks, Keys c = Some (ks, c) ∧ NoDup ks ∧
    (∀ k, k ∈ ks ↔ resident c k = true) ∧
    Len c = Some (Z.of_nat (length ks), c).
Proof.
  exists ((map_to_list (items c)).*1).
  split; [done|]. split; [apply NoDup_fst_map_to_list|]. split.
  - intros k. rewrite list_elem_of_fmap. split.
    + intros ([k' l] & -> & Hkl%elem_of_map_to_list).
      by apply (resident_true c k' l).
    + intros [l Hl]%resident_true_inv. exists (k, l).
      split; [done|]. by apply elem_of_map_to_list.
  - unfold Len. by rewrite length_fmap, length_map_to_list.
Qed.

(** X12: apart from the slot the next insertion will overwrite, the ring
    holds no stale element: an element found in slot i is the entry of a
    resident key, carries that key and records slot i.  (The slot of the
    next insertion may still hold the element Add has just evicted.) *)
Theorem ring_holds_resident_entries sz (os : list (op K V)) tr c i l :
  built sz os = Some (tr, c) →
  ring_get (ring c) i = Some (Some l) → i ≠ next_head c ∨ sz = 1 →
  ∃ k e, items c !! k = Some l ∧ mem c !! l = Some e ∧
         key e = k ∧ index e = i.
Proof.
  intros Hb Hr Hside.
  destruct (built_inv sz os tr c Hb) as (_ & _ & Hsz).
  destruct (built_tidy sz os tr c Hb) as [Hwf Hty].
  apply ring_get_Some in Hr as [Hi Hr].
  destruct (Hty (Z.to_nat i) l Hr) as (k & e & Hk & He & Hie).
  { rewrite Z2Nat.id by lia. rewrite Hsz. done. }
  destruct (wf_index c k l e Hwf Hk He) as (Hkey & _ & _).
  exists k, e. split_and!; try done. lia.
Qed.

(** X13: promotion needs logarithmically many accesses in the capacity,
    whatever the position: a resident key is at the head after any
    floor(log2 capacity) + 1 or more consecutive Get calls on it. *)
Theorem Get_reaches_head_in_log_capacity sz (os : list (op K V)) tr c k (n : nat) :
  built sz os = Some (tr, c) → resident c k = true →
  Z.log2 sz + 1 <= Z.of_nat n →
  ∃ tr' c', run (gets n k) c = Some (tr', c') ∧ distance c' k = Some 0.
Proof.
  intros Hb Hr Hn. destruct (built_inv sz os tr c Hb) as (Hs & Hwf & Hsz).
  apply (distance_is_Some c k Hwf) in Hr as [d Hd].
  pose proof (distance_range c k d Hwf Hd) as Hdr.
  destruct (gets_halve n c k d Hwf Hd) as (tr' & c' & Hrun & _ & Hd').
  exists tr', c'. split; [done|]. rewrite Hd'. f_equal.
  apply Z.div_small. split; [lia|].
  pose proof (Z.log2_spec sz Hs) as [_ Hub].
  rewrite <- Z.add_1_r in Hub.
  pose proof (Z.log2_nonneg sz).
  assert (2 ^ (Z.log2 sz + 1) <= 2 ^ Z.of_nat n)
    by (apply Z.pow_le_mono_r; lia).
  lia.
Qed.

End FurtherProperties.

(** ** The wrapper and the engine *)

Section WrapperProperties.
Context {K : Type} `{Countable K} {V : Type}.
Implicit Types (e : lruish K V) (k : K) (v : V).

Lemma run_cons (o : op K V) (os : list (op K V)) e :
  run (o :: os) e =
    match exec o e with
    | Some (r, e1) =>
        match run os e1 with
        | Some (tr, e2) => Some ((o, r) :: tr, e2)
        | None => None
        end
    | None => None
    end.
Proof.
  simpl. destruct (exec o e) as [[r e1]|]; [|done]. simpl.
  by destruct (run os e1) as [[tr e2]|].
Qed.

Lemma synched_exec_delegates (fuel : nat) (o : synched_op K V) e :
  wf e → delegates o = true →
  ∃ r e', exec (to_op o) e = Some (r, e') ∧ wf e' ∧
    synched_exec fuel o
      {| lru := e; lock := {| writer := false; readers := O |} |}
    = Returns (r, {| lru := e';
                     lock := {| writer := false; readers := O |} |}).
Proof.
  intros Hwf Hd.
  destruct (exec_wf (to_op o) e Hwf) as (r & e' & He & Hwf' & _).
  exists r, e'. split; [done|]. split; [done|].
  destruct o as [k v|k|k|k|k v|k| |]; try discriminate; simpl in *;
    unfold SynchedLRU_Add, SynchedLRU_Get, SynchedLRU_Contains,
      SynchedLRU_Peek, SynchedLRU_Remove, SynchedLRU_Keys, SynchedLRU_Len,
      with_Lock, with_RLock; simpl.
  - destruct (Add e k v) as [[b e1]|]; [|done]. simpl in *. congruence.
  - destruct (Get e k) as [[b e1]|]; [|done]. simpl in *. congruence.
  - destruct (Contains e k) as [[b e1]|]; [|done]. simpl in *. congruence.
  - destruct (Peek e k) as [[b e1]|]; [|done]. simpl in *. congruence.
  - destruct (Remove e k) as [[b e1]|]; [|done]. simpl in *. congruence.
  - congruence.
  - congruence.
Qed.


End WrapperProperties.

(** ** Instances of the further properties *)

Lemma Add_then_Peek_and_Get_witness :
  ∃ b c', Add cache_three_of_four 2 "z"%string = Some (b, c') ∧
    Peek c' 2 = Some ((Some "z"%string, true), c') ∧
    ∃ c'', Get c' 2 = Some ((Some "z"%string, true), c'').
Proof.
  apply (Add_then_Peek_and_Get 4 three_of_four trace_three_of_four).
  vm_compute. reflexivity.
Defined.

Lemma Add_resident_updates_in_place_witness :
  ∃ c', Add cache_three_of_four 1 "z"%string = Some (false, c') ∧
    len c' = len cache_three_of_four ∧ stored c' 1 = Some "z"%string ∧
    distance c' 1 = Some 1 ∧ distance c' 2 = Some 2.
Proof.
  destruct (Add_resident_updates_in_place 4 three_of_four trace_three_of_four
              cache_three_of_four 1 "z"%string 2)
    as (c' & Ha & Hl & _ & _ & Hv & _ & Hd & Ho).
  - vm_compute. reflexivity.
  - vm_compute. reflexivity.
  - exists c'. split; [exact Ha|]. split; [exact Hl|]. split; [exact Hv|].
    split; [exact Hd|]. rewrite (Ho 2); [reflexivity|lia].
Defined.

Lemma Get_only_reorders_witness :
  ∃ c', Get cache_three_of_four 1 = Some ((Some "a"%string, true), c') ∧
    len c' = len cache_three_of_four ∧
    distance c' 1 = Some 1 ∧ distance c' 2 = Some 2 ∧ distance c' 3 = Some 0.
Proof.
  destruct (Get_only_reorders 4 three_of_four trace_three_of_four
              cache_three_of_four 1 2)
    as (c' & Hg & _ & Hl & _ & _ & _ & Hd & Ho).
  - vm_compute. reflexivity.
  - vm_compute. reflexivity.
  - exists c'. split; [exact Hg|]. split; [exact Hl|]. split; [exact Hd|].
    split; [rewrite (Ho 2); [reflexivity|lia] | rewrite (Ho 3); [reflexivity|lia]].
Defined.

Lemma Add_new_key_ages_and_evicts_witness :
  ∃ c', Add cache_three_of_four 4 "d"%string = Some (true, c') ∧
    distance c' 4 = Some 0 ∧ distance c' 3 = Some 1 ∧
    distance c' 2 = Some 2 ∧ distance c' 1 = None.
Proof.
  destruct (Add_new_key_ages_and_evicts 4 three_of_four trace_three_of_four
              cache_three_of_four 4 "d"%string)
    as (c' & Ha & _ & Hd & _ & Ho).
  - vm_compute. reflexivity.
  - lia.
  - vm_compute. reflexivity.
  - exists c'. split; [exact Ha|]. split; [exact Hd|].
    split; [|split].
    + destruct (Ho 3) as [-> _]; [lia|reflexivity].
    + destruct (Ho 2) as [-> _]; [lia|reflexivity].
    + destruct (Ho 1) as [-> _]; [lia|reflexivity].
Defined.

Lemma Add_new_key_Len_witness :
  ∃ c', Add cache_three_of_four 4 "d"%string = Some (true, c') ∧ len c' = 3.
Proof.
  destruct (Add_new_key_Len 4 three_of_four trace_three_of_four
              cache_three_of_four 4 "d"%string)
    as (c' & Ha & _ & Hfull).
  - vm_compute. reflexivity.
  - vm_compute. reflexivity.
  - exists c'. split; [exact Ha|].
    destruct Hfull as [_ Hfull]; [lia|]. apply Hfull. vm_compute. reflexivity.
Defined.

Lemma capacity_one_holds_last_key_witness :
  ∃ tr c, built 1 [OpAdd 1 "a"%string] = Some (tr, c) ∧
    ∃ c', Add c 2 "b"%string = Some (true, c') ∧ len c' = 1 ∧
          stored c' 2 = Some "b"%string ∧ resident c' 1 = false.
Proof.
  destruct (built 1 [OpAdd 1 "a"%string]) as [[tr c]|] eqn:Hb;
    [|by vm_compute in Hb].
  exists tr, c. split; [reflexivity|].
  destruct (capacity_one_holds_last_key [OpAdd 1 "a"%string] tr c 2 "b"%string)
    as (c' & Ha & Hl & Hs & Ho).
  - exact Hb.
  - vm_compute in Hb. injection Hb as <- <-. vm_compute. reflexivity.
  - exists c'. split; [exact Ha|]. split; [exact Hl|]. split; [exact Hs|].
    apply Ho. lia.
Defined.

Lemma Remove_takes_one_key_witness :
  ∃ c', Remove cache_three_of_four 1 = Some (true, c') ∧
    resident c' 1 = false ∧ len c' = len cache_three_of_four - 1 ∧
    ring_get (ring c') 3 = Some None ∧ distance c' 2 = Some 1.
Proof.
  destruct (Remove_takes_one_key 4 three_of_four trace_three_of_four
              cache_three_of_four 1 2)
    as (c' & Hr & Hn & Hl & _ & Hh & _ & Ho).
  - vm_compute. reflexivity.
  - vm_compute. reflexivity.
  - exists c'. split; [exact Hr|]. split; [exact Hn|]. split; [exact Hl|].
    split; [exact Hh|]. destruct (Ho 2) as (_ & _ & ->); [lia|reflexivity].
Defined.

Lemma insertions_keep_the_last_keys_witness :
  ∃ tr c,
    built 3 (adds [(1, "a"); (2, "b"); (3, "c"); (4, "d")]%string)
      = Some (tr, c) ∧
    len c = 2 ∧ stored c 4 = Some "d"%string.
Proof.
  destruct (insertions_keep_the_last_keys 3
              [(1, "a"); (2, "b"); (3, "c"); (4, "d")]%string)
    as (tr & c & Hb & _ & Hl & _ & Hs).
  - lia.
  - apply (bool_decide_unpack _). vm_compute. exact I.
  - exists tr, c. split; [exact Hb|]. split; [exact Hl|].
    apply Hs. apply (bool_decide_unpack _). vm_compute. exact I.
Defined.

Lemma Purge_starts_afresh_witness :
  ∃ c0, Purge cache_three_of_four = Some (tt, c0) ∧ len c0 = 0 ∧
    ∃ tr c', run (adds [(7, "x"); (8, "y")]%string) c0 = Some (tr, c') ∧
             len c' = 2.
Proof.
  destruct (Purge_starts_afresh 4 three_of_four trace_three_of_four
              cache_three_of_four [(7, "x"); (8, "y")]%string)
    as (c0 & Hp & Hl & _ & _ & Hfill).
  - vm_compute. reflexivity.
  - destruct Hfill as (tr & c' & Hr & _ & Hl' & _).
    + lia.
    + apply (bool_decide_unpack _). vm_compute. exact I.
    + exists c0. split; [exact Hp|]. split; [exact Hl|].
      exists tr, c'. split; [exact Hr|exact Hl'].
Defined.

Lemma ContainsOrAdd_keeps_resident_entry_witness :
  ∃ r c', ContainsOrAdd cache_three_of_four 1 "z"%string = Some (r, c') ∧
    r = (true, false) ∧ c' = cache_three_of_four.
Proof.
  destruct (ContainsOrAdd_keeps_resident_entry 4 three_of_four
              trace_three_of_four cache_three_of_four 1 "z"%string)
    as (r & c' & Hc & _ & Hres & _).
  - vm_compute. reflexivity.
  - exists r, c'. split; [exact Hc|]. apply Hres. vm_compute. reflexivity.
Defined.

Lemma ring_holds_resident_entries_witness :
  ∃ k e, items cache_three_of_four !! k = Some 1%nat ∧
         mem cache_three_of_four !! 1%nat = Some e ∧ key e = k ∧ index e = 2.
Proof.
  apply (ring_holds_resident_entries 4 three_of_four trace_three_of_four).
  - vm_compute. reflexivity.
  - vm_compute. reflexivity.
  - left. vm_compute. discriminate.
Defined.

Lemma Get_reaches_head_in_log_capacity_witness :
  ∃ tr' c', run (gets 3 1) cache_three_of_four = Some (tr', c') ∧
            distance c' 1 = Some 0.
Proof.
  apply (Get_reaches_head_in_log_capacity 4 three_of_four trace_three_of_four).
  - vm_compute. reflexivity.
  - vm_compute. reflexivity.
  - vm_compute. discriminate.
Defined.

